(** * StoryCrafter: the authorization-scoped CRUD core of [src/actions/index.ts]

    A shallow embedding of the fifteen actions of the [server] object, of the
    four ownership resolvers and of the four tables they work on, followed by
    the properties the specification states about them.

    Conventions of the embedding.
    - A table is the list of its rows, in row order; a row is a record with the
      columns of [defineTable].  An [optional] column is an [option]: [None]
      is SQL NULL.
    - An optional input field ([z.string().optional()]) is an [option]: [None]
      is JavaScript [undefined].  The schemas never accept [null].
    - A handler is a computation over the datastore that may throw.  A throw
      keeps the store as it is at that point (nothing is rolled back), and
      every datastore statement that ran is recorded in a log, reads included.
    - [crypto.randomUUID()] and [new Date()] are read from a [Runtime] record:
      every handler calls each of them at most once.
    - The datastore is the engine the tables are declared for.  It enforces
      the foreign keys of [references]: an insert whose row names a missing
      parent and a delete of a referenced row are rejected and change
      nothing.  A write with [returning()] answers with the written rows read
      back through the driver, which fails on an integer that JavaScript
      cannot represent exactly, after the write is committed.
    - What the model leaves out of the engine.  An insert is not checked
      against the primary key: an id of [crypto.randomUUID()] is taken not
      to collide with a stored id; where a theorem takes the generated id
      to be new to its table, that is why.  A selection returns the stored
      rows as they are: the driver's failure on an unsafe integer is
      modelled where a write reads its rows back, not on selections; where
      a theorem takes the stored integers to be safe ([integers_safe]),
      that is why.  What the driver does to a U+0000 inside a text when it
      reads a row is not modelled: rows are returned and listed with their
      texts as stored, and the theorems on creates and updates state texts
      for the stored rows only. *)

From Stdlib Require Import String List ZArith Bool Lia.
Import ListNotations.
Open Scope string_scope.
Open Scope list_scope.

(** ** Tables *)

(** [column.date]: a point in time, in milliseconds since the epoch. *)
Definition Date := Z.

Module Stories.
Record Row := mk {
    id : string;
    userId : string;
    title : string;
    logline : option string;
    genre : option string;
    targetAudience : option string;
    status : option string;
    notes : option string;
    createdAt : Date;
    updatedAt : Date
  }.
End Stories.

Module StoryActs.
Record Row := mk {
    id : string;
    storyId : string;
    orderIndex : Z;
    title : option string;
    summary : option string;
    createdAt : Date
  }.
End StoryActs.

Module StoryChapters.
Record Row := mk {
    id : string;
    storyId : string;
    actId : option string;
    orderIndex : Z;
    title : option string;
    povCharacter : option string;
    summary : option string;
    createdAt : Date;
    updatedAt : Date
  }.
End StoryChapters.

Module StoryScenes.
Record Row := mk {
    id : string;
    storyId : string;
    chapterId : option string;
    orderIndex : Z;
    setting : option string;
    goal : option string;
    conflict : option string;
    outcome : option string;
    content : option string;
    createdAt : Date;
    updatedAt : Date
  }.
End StoryScenes.

(** The [tables] object: the whole datastore. *)
Record DB := mkDB {
  tblStories : list Stories.Row;
  tblStoryActs : list StoryActs.Row;
  tblStoryChapters : list StoryChapters.Row;
  tblStoryScenes : list StoryScenes.Row
}.

Inductive TableName := Stories_ | StoryActs_ | StoryChapters_ | StoryScenes_.

(** A table handle: how to read and replace its rows in the datastore, and
    what the engine checks on its rows.  [parents_stored r d]: every
    [references] column of [r] names a stored row (NULL names none).
    [referenced r d]: a row of another table references [r].
    [reads_back r]: the driver can read [r] back. *)
Record Table (R : Type) := mkTable {
  name : TableName;
  rows : DB -> list R;
  with_rows : list R -> DB -> DB;
  parents_stored : R -> DB -> bool;
  referenced : R -> DB -> bool;
  reads_back : R -> bool
}.
Arguments name {R} _.
Arguments rows {R} _ _.
Arguments with_rows {R} _ _ _.
Arguments parents_stored {R} _ _ _.
Arguments referenced {R} _ _ _.
Arguments reads_back {R} _ _.

(** [k] is the value of column [key] in a row of [l]. *)
Definition stored_under {R} (key : R -> string) (l : list R) (k : string)
  : bool :=
  existsb (fun r => String.eqb (key r) k) l.

(** An optional reference names a row of [l], or is NULL. *)
Definition link_stored {R} (key : R -> string) (l : list R)
           (link : option string) : bool :=
  match link with Some k => stored_under key l k | None => true end.

(** A row of [l] references [k] through its optional column [link]. *)
Definition linked_from {R} (link : R -> option string) (l : list R)
           (k : string) : bool :=
  existsb (fun r => match link r with
                    | Some v => String.eqb v k
                    | None => false
                    end) l.

(** [column.number()] is an INTEGER column: a number that fits 64 bits is
    stored as an integer, which the driver reads back as a JavaScript number
    and refuses when it is not a safe integer (2^53 or more in absolute
    value); a larger number is stored and read back as a float. *)
Definition reads_back_number (n : Z) : bool :=
  (Z.abs n <? 2 ^ 53)%Z || (2 ^ 63 <=? Z.abs n)%Z.

Arguments stored_under : simpl never.
Arguments link_stored : simpl never.
Arguments linked_from : simpl never.
Arguments reads_back_number : simpl never.

Definition Stories : Table Stories.Row :=
  mkTable _ Stories_ tblStories
    (fun l d => mkDB l (tblStoryActs d) (tblStoryChapters d) (tblStoryScenes d))
    (fun _ _ => true)
    (fun s d =>
       stored_under StoryActs.storyId (tblStoryActs d) (Stories.id s) ||
       stored_under StoryChapters.storyId (tblStoryChapters d) (Stories.id s) ||
       stored_under StoryScenes.storyId (tblStoryScenes d) (Stories.id s))
    (fun _ => true).
Definition StoryActs : Table StoryActs.Row :=
  mkTable _ StoryActs_ tblStoryActs
    (fun l d => mkDB (tblStories d) l (tblStoryChapters d) (tblStoryScenes d))
    (fun a d => stored_under Stories.id (tblStories d) (StoryActs.storyId a))
    (fun a d =>
       linked_from StoryChapters.actId (tblStoryChapters d) (StoryActs.id a))
    (fun a => reads_back_number (StoryActs.orderIndex a)).
Definition StoryChapters : Table StoryChapters.Row :=
  mkTable _ StoryChapters_ tblStoryChapters
    (fun l d => mkDB (tblStories d) (tblStoryActs d) l (tblStoryScenes d))
    (fun c d =>
       stored_under Stories.id (tblStories d) (StoryChapters.storyId c) &&
       link_stored StoryActs.id (tblStoryActs d) (StoryChapters.actId c))
    (fun c d =>
       linked_from StoryScenes.chapterId (tblStoryScenes d)
         (StoryChapters.id c))
    (fun c => reads_back_number (StoryChapters.orderIndex c)).
Definition StoryScenes : Table StoryScenes.Row :=
  mkTable _ StoryScenes_ tblStoryScenes
    (fun l d => mkDB (tblStories d) (tblStoryActs d) (tblStoryChapters d) l)
    (fun s d =>
       stored_under Stories.id (tblStories d) (StoryScenes.storyId s) &&
       link_stored StoryChapters.id (tblStoryChapters d)
         (StoryScenes.chapterId s))
    (fun _ _ => false)
    (fun s => reads_back_number (StoryScenes.orderIndex s)).

(** ** Errors *)

Inductive ErrorCode := UNAUTHORIZED | NOT_FOUND.

(** A schema issue: a [min(1)] string that is empty, or a failed [refine]
    with its message. *)
Inductive Issue :=
| too_small (path : string)
| custom (message : string).

(** Why the datastore driver throws inside a handler: the engine rejected
    the statement on a foreign key, or a written row holds an integer the
    driver cannot read back. *)
Inductive DriverFault := foreign_key_violation | unsafe_integer.

(** What an action throws: an [ActionError] of a handler, the input error
    [defineAction] raises when the input does not parse, or an error of the
    datastore driver, which no handler catches and the framework answers as
    an internal server error. *)
Inductive Failure :=
| ActionError (code : ErrorCode) (message : string)
| ActionInputError (issues : list Issue)
| DriverError (fault : DriverFault).

(** The three error kinds of the specification, and the internal error. *)
Inductive ErrorKind := Unauthorized | NotFound | ValidationError
                     | InternalError.

Definition kind (e : Failure) : ErrorKind :=
  match e with
  | ActionError UNAUTHORIZED _ => Unauthorized
  | ActionError NOT_FOUND _ => NotFound
  | ActionInputError _ => ValidationError
  | DriverError _ => InternalError
  end.

(** ** Computations over the datastore *)

Inductive Stmt :=
| Select (t : TableName)
| Insert (t : TableName)
| Update (t : TableName)
| Delete (t : TableName).

Definition is_write (s : Stmt) : bool :=
  match s with Select _ => false | _ => true end.

Record Run (A : Type) := mkRun {
  outcome : Failure + A;
  store : DB;
  log : list Stmt
}.
Arguments mkRun {A} _ _ _.
Arguments outcome {A} _.
Arguments store {A} _.
Arguments log {A} _.

Definition Action (A : Type) := DB -> Run A.

Definition ret {A} (a : A) : Action A := fun d => mkRun (inr a) d [].

Definition throw {A} (e : Failure) : Action A := fun d => mkRun (inl e) d [].

Definition bind {A B} (m : Action A) (k : A -> Action B) : Action B :=
  fun d =>
    match m d with
    | mkRun (inl e) d1 l1 => mkRun (inl e) d1 l1
    | mkRun (inr a) d1 l1 =>
        match k a d1 with
        | mkRun o d2 l2 => mkRun o d2 (l1 ++ l2)
        end
    end.

Declare Scope action_scope.
Delimit Scope action_scope with action.
Notation "x <- m ;; k" := (bind m (fun x => k))
  (at level 100, m at next level, right associativity) : action_scope.
Notation "m ;; k" := (bind m (fun _ => k))
  (at level 100, right associativity) : action_scope.
Open Scope action_scope.

(** [if (c) { await m }] *)
Definition when (c : bool) (m : Action unit) : Action unit :=
  if c then m else ret tt.

(** ** The query builder *)

Definition Cond (R : Type) := R -> bool.

(** [eq(column, value)] on a text column. *)
Definition eq_ {R} (column : R -> string) (value : string) : Cond R :=
  fun r => String.eqb (column r) value.

(** [eq(column, value)] on an optional text column: NULL equals nothing. *)
Definition eq_opt {R} (column : R -> option string) (value : string) : Cond R :=
  fun r => match column r with Some v => String.eqb v value | None => false end.

Definition and_ {R} (p q : Cond R) : Cond R := fun r => p r && q r.

(** [db.select().from(T).where(w)] *)
Definition select_from {R} (T : Table R) (w : Cond R) : Action (list R) :=
  fun d => mkRun (inr (filter w (rows T d))) d [Select (name T)].

(** [.returning()]: the written rows, read back through the driver. *)
Definition returning {R} (T : Table R) (written : list R)
  : Failure + list R :=
  if forallb (reads_back T) written then inr written
  else inl (DriverError unsafe_integer).

(** [db.insert(T).values(v).returning()]: rejected when the row names a
    missing parent; otherwise the row is appended, then read back. *)
Definition insert_into {R} (T : Table R) (values : R) : Action (list R) :=
  fun d =>
    if parents_stored T values d
    then mkRun (returning T [values])
           (with_rows T (rows T d ++ [values]) d) [Insert (name T)]
    else mkRun (inl (DriverError foreign_key_violation)) d [Insert (name T)].

(** [db.update(T).set(s).where(w).returning()]: [set] rewrites a row; the
    rewritten rows are then read back.  (The handlers put a reference in
    [set] only after its lookup, so the engine has no foreign key to reject
    an update on.) *)
Definition update {R} (T : Table R) (set : R -> R) (w : Cond R)
  : Action (list R) :=
  fun d => mkRun (returning T (map set (filter w (rows T d))))
             (with_rows T (map (fun r => if w r then set r else r) (rows T d)) d)
             [Update (name T)].

(** [db.delete(T).where(w)]: rejected when a row it would remove is
    referenced. *)
Definition delete_from {R} (T : Table R) (w : Cond R) : Action unit :=
  fun d =>
    if existsb (fun r => w r && referenced T r d) (rows T d)
    then mkRun (inl (DriverError foreign_key_violation)) d [Delete (name T)]
    else mkRun (inr tt)
           (with_rows T (filter (fun r => negb (w r)) (rows T d)) d)
           [Delete (name T)].

(** [...(x !== undefined ? { column: x } : {})] inside [set]: the column takes
    the supplied value, or keeps the stored one. *)
Definition assign {A} (x : option A) (stored : A) : A :=
  match x with Some v => v | None => stored end.

(** The same for an optional column, whose stored value may be NULL. *)
Definition assign_opt {A} (x : option A) (stored : option A) : option A :=
  match x with Some v => Some v | None => stored end.

(** JavaScript truthiness of an optional string: [undefined] and the empty
    string are falsy. *)
Definition truthy (x : option string) : bool :=
  match x with Some s => negb (String.eqb s "") | None => false end.

(** The string an optional input is once a test has narrowed its type: it is
    read only under [truthy x] or [defined x]. *)
Definition narrowed (x : option string) : string :=
  match x with Some s => s | None => "" end.

(** [x !== undefined], and [x !== undefined && x !== null] on a parsed input,
    which is never [null]. *)
Definition defined {A} (x : option A) : bool :=
  match x with Some _ => true | None => false end.

(** ** Request context and runtime *)

Module App.
Record User := mkUser { id : string }.
Record Locals := mkLocals { user : option User }.
End App.

Record ActionAPIContext := mkContext { locals : option App.Locals }.

Record Runtime := mkRuntime {
  randomUUID : string;   (* crypto.randomUUID() *)
  now : Date             (* new Date() *)
}.

(** ** Gates *)

(** [context.locals?.user] *)
Definition locals_user (context : ActionAPIContext) : option App.User :=
  match locals context with
  | Some l => App.user l
  | None => None
  end.

Definition requireUser (context : ActionAPIContext) : Action App.User :=
  match locals_user context with
  | None => throw (ActionError UNAUTHORIZED
                     "You must be signed in to perform this action.")
  | Some u => ret u
  end.

Definition getOwnedStory (storyId userId : string) : Action Stories.Row :=
  found <- select_from Stories
             (and_ (eq_ Stories.id storyId) (eq_ Stories.userId userId)) ;;
  match found with
  | [] => throw (ActionError NOT_FOUND "Story not found.")
  | story :: _ => ret story
  end.

Definition getOwnedAct (actId storyId userId : string)
  : Action StoryActs.Row :=
  getOwnedStory storyId userId ;;
  found <- select_from StoryActs
             (and_ (eq_ StoryActs.id actId) (eq_ StoryActs.storyId storyId)) ;;
  match found with
  | [] => throw (ActionError NOT_FOUND "Act not found.")
  | act :: _ => ret act
  end.

Definition getOwnedChapter (chapterId storyId userId : string)
  : Action StoryChapters.Row :=
  getOwnedStory storyId userId ;;
  found <- select_from StoryChapters
             (and_ (eq_ StoryChapters.id chapterId)
                   (eq_ StoryChapters.storyId storyId)) ;;
  match found with
  | [] => throw (ActionError NOT_FOUND "Chapter not found.")
  | chapter :: _ => ret chapter
  end.

Definition getOwnedScene (sceneId storyId userId : string)
  : Action StoryScenes.Row :=
  getOwnedStory storyId userId ;;
  found <- select_from StoryScenes
             (and_ (eq_ StoryScenes.id sceneId)
                   (eq_ StoryScenes.storyId storyId)) ;;
  match found with
  | [] => throw (ActionError NOT_FOUND "Scene not found.")
  | scene :: _ => ret scene
  end.

(** ** Input schemas *)

(** [z.string().min(1)] at [path]. *)
Definition min1 (path : string) (s : string) : list Issue :=
  if String.eqb s "" then [too_small path] else [].

(** [z.string().min(1).optional()] at [path]. *)
Definition min1_optional (path : string) (s : option string) : list Issue :=
  match s with Some v => min1 path v | None => [] end.

(** [.refine(check, { message })]: runs on an object whose fields have the
    right types, whatever its fields' own issues. *)
Definition refine (check : bool) (message : string) : list Issue :=
  if check then [] else [custom message].

(** ** Results *)

(** The envelope of a successful action: [{ success: true, data }], with the
    shape of [data] of each family of actions; [done] is a bare
    [{ success: true }].  A row that comes from destructuring [returning()]
    is the first returned row, if any. *)
Inductive Response :=
| story_ (story : option Stories.Row)
| act_ (act : option StoryActs.Row)
| chapter_ (chapter : option StoryChapters.Row)
| scene_ (scene : option StoryScenes.Row)
| stories_ (items : list Stories.Row) (total : nat)
| acts_ (items : list StoryActs.Row) (total : nat)
| chapters_ (items : list StoryChapters.Row) (total : nat)
| scenes_ (items : list StoryScenes.Row) (total : nat)
| done.

Definition Handler (I : Type) :=
  I -> ActionAPIContext -> Runtime -> Action Response.

(** [defineAction({ input, handler })]: the framework parses the raw input
    against the schema and calls the handler on the parsed value only; an
    input with issues is answered with an input error and the handler does not
    run (section 2 of the specification: "Validator enforces shape", then
    identity, then ownership). *)
Definition defineAction {I} (input : I -> list Issue) (handler : Handler I)
  : Handler I :=
  fun i context rt =>
    match input i with
    | [] => handler i context rt
    | issues => throw (ActionInputError issues)
    end.

(** ** Stories *)

Module CreateStory.
Record Input := mk {
  title : string;
  logline : option string;
  genre : option string;
  targetAudience : option string;
  status : option string;
  notes : option string
}.

Definition schema (i : Input) : list Issue := min1 "title" (title i).

Definition handler : Handler Input := fun input context rt =>
  user <- requireUser context ;;
  let now := now rt in
  inserted <- insert_into Stories
    {| Stories.id := randomUUID rt;
       Stories.userId := App.id user;
       Stories.title := title input;
       Stories.logline := logline input;
       Stories.genre := genre input;
       Stories.targetAudience := targetAudience input;
       Stories.status := status input;
       Stories.notes := notes input;
       Stories.createdAt := now;
       Stories.updatedAt := now |} ;;
  ret (story_ (hd_error inserted)).
End CreateStory.

Module UpdateStory.
Record Input := mk {
  id : string;
  title : option string;
  logline : option string;
  genre : option string;
  targetAudience : option string;
  status : option string;
  notes : option string
}.

Definition schema (i : Input) : list Issue :=
  min1 "id" (id i) ++ min1_optional "title" (title i) ++
  refine (defined (title i) || defined (logline i) || defined (genre i) ||
          defined (targetAudience i) || defined (status i) ||
          defined (notes i))
    "At least one field must be provided to update.".

Definition set (input : Input) (rt : Runtime) (r : Stories.Row) : Stories.Row :=
  {| Stories.id := Stories.id r;
     Stories.userId := Stories.userId r;
     Stories.title := assign (title input) (Stories.title r);
     Stories.logline := assign_opt (logline input) (Stories.logline r);
     Stories.genre := assign_opt (genre input) (Stories.genre r);
     Stories.targetAudience :=
       assign_opt (targetAudience input) (Stories.targetAudience r);
     Stories.status := assign_opt (status input) (Stories.status r);
     Stories.notes := assign_opt (notes input) (Stories.notes r);
     Stories.createdAt := Stories.createdAt r;
     Stories.updatedAt := now rt |}.

Definition handler : Handler Input := fun input context rt =>
  user <- requireUser context ;;
  getOwnedStory (id input) (App.id user) ;;
  updated <- update Stories (set input rt) (eq_ Stories.id (id input)) ;;
  ret (story_ (hd_error updated)).
End UpdateStory.

Module ListStories.
Definition Input := unit.

Definition schema (i : Input) : list Issue := [].

Definition handler : Handler Input := fun _input context rt =>
  user <- requireUser context ;;
  stories <- select_from Stories (eq_ Stories.userId (App.id user)) ;;
  ret (stories_ stories (length stories)).
End ListStories.

(** ** Acts *)

Module CreateStoryAct.
Record Input := mk {
  storyId : string;
  orderIndex : option Z;
  title : option string;
  summary : option string
}.

Definition schema (i : Input) : list Issue := min1 "storyId" (storyId i).

Definition handler : Handler Input := fun input context rt =>
  user <- requireUser context ;;
  getOwnedStory (storyId input) (App.id user) ;;
  inserted <- insert_into StoryActs
    {| StoryActs.id := randomUUID rt;
       StoryActs.storyId := storyId input;
       StoryActs.orderIndex := assign (orderIndex input) 1%Z;
       StoryActs.title := title input;
       StoryActs.summary := summary input;
       StoryActs.createdAt := now rt |} ;;
  ret (act_ (hd_error inserted)).
End CreateStoryAct.

Module UpdateStoryAct.
Record Input := mk {
  id : string;
  storyId : string;
  orderIndex : option Z;
  title : option string;
  summary : option string
}.

Definition schema (i : Input) : list Issue :=
  min1 "id" (id i) ++ min1 "storyId" (storyId i) ++
  refine (defined (orderIndex i) || defined (title i) || defined (summary i))
    "At least one field must be provided to update.".

Definition set (input : Input) (r : StoryActs.Row) : StoryActs.Row :=
  {| StoryActs.id := StoryActs.id r;
     StoryActs.storyId := StoryActs.storyId r;
     StoryActs.orderIndex := assign (orderIndex input) (StoryActs.orderIndex r);
     StoryActs.title := assign_opt (title input) (StoryActs.title r);
     StoryActs.summary := assign_opt (summary input) (StoryActs.summary r);
     StoryActs.createdAt := StoryActs.createdAt r |}.

Definition handler : Handler Input := fun input context rt =>
  user <- requireUser context ;;
  getOwnedAct (id input) (storyId input) (App.id user) ;;
  updated <- update StoryActs (set input) (eq_ StoryActs.id (id input)) ;;
  ret (act_ (hd_error updated)).
End UpdateStoryAct.

Module DeleteStoryAct.
Record Input := mk { id : string; storyId : string }.

Definition schema (i : Input) : list Issue :=
  min1 "id" (id i) ++ min1 "storyId" (storyId i).

Definition handler : Handler Input := fun input context rt =>
  user <- requireUser context ;;
  getOwnedAct (id input) (storyId input) (App.id user) ;;
  delete_from StoryActs (eq_ StoryActs.id (id input)) ;;
  ret done.
End DeleteStoryAct.

Module ListStoryActs.
Record Input := mk { storyId : string }.

Definition schema (i : Input) : list Issue := min1 "storyId" (storyId i).

Definition handler : Handler Input := fun input context rt =>
  user <- requireUser context ;;
  getOwnedStory (storyId input) (App.id user) ;;
  acts <- select_from StoryActs (eq_ StoryActs.storyId (storyId input)) ;;
  ret (acts_ acts (length acts)).
End ListStoryActs.

(** ** Chapters *)

Module CreateStoryChapter.
Record Input := mk {
  storyId : string;
  actId : option string;
  orderIndex : option Z;
  title : option string;
  povCharacter : option string;
  summary : option string
}.

Definition schema (i : Input) : list Issue := min1 "storyId" (storyId i).

Definition handler : Handler Input := fun input context rt =>
  user <- requireUser context ;;
  getOwnedStory (storyId input) (App.id user) ;;
  when (truthy (actId input))
    (getOwnedAct (narrowed (actId input)) (storyId input) (App.id user) ;;
     ret tt) ;;
  let now := now rt in
  inserted <- insert_into StoryChapters
    {| StoryChapters.id := randomUUID rt;
       StoryChapters.storyId := storyId input;
       StoryChapters.actId := actId input;   (* input.actId ?? null *)
       StoryChapters.orderIndex := assign (orderIndex input) 1%Z;
       StoryChapters.title := title input;
       StoryChapters.povCharacter := povCharacter input;
       StoryChapters.summary := summary input;
       StoryChapters.createdAt := now;
       StoryChapters.updatedAt := now |} ;;
  ret (chapter_ (hd_error inserted)).
End CreateStoryChapter.

Module UpdateStoryChapter.
Record Input := mk {
  id : string;
  storyId : string;
  actId : option string;
  orderIndex : option Z;
  title : option string;
  povCharacter : option string;
  summary : option string
}.

Definition schema (i : Input) : list Issue :=
  min1 "id" (id i) ++ min1 "storyId" (storyId i) ++
  refine (defined (actId i) || defined (orderIndex i) || defined (title i) ||
          defined (povCharacter i) || defined (summary i))
    "At least one field must be provided to update.".

Definition set (input : Input) (rt : Runtime) (r : StoryChapters.Row)
  : StoryChapters.Row :=
  {| StoryChapters.id := StoryChapters.id r;
     StoryChapters.storyId := StoryChapters.storyId r;
     StoryChapters.actId := assign_opt (actId input) (StoryChapters.actId r);
     StoryChapters.orderIndex :=
       assign (orderIndex input) (StoryChapters.orderIndex r);
     StoryChapters.title := assign_opt (title input) (StoryChapters.title r);
     StoryChapters.povCharacter :=
       assign_opt (povCharacter input) (StoryChapters.povCharacter r);
     StoryChapters.summary :=
       assign_opt (summary input) (StoryChapters.summary r);
     StoryChapters.createdAt := StoryChapters.createdAt r;
     StoryChapters.updatedAt := now rt |}.

Definition handler : Handler Input := fun input context rt =>
  user <- requireUser context ;;
  getOwnedChapter (id input) (storyId input) (App.id user) ;;
  when (defined (actId input))
    (getOwnedAct (narrowed (actId input)) (storyId input) (App.id user) ;;
     ret tt) ;;
  updated <- update StoryChapters (set input rt)
               (eq_ StoryChapters.id (id input)) ;;
  ret (chapter_ (hd_error updated)).
End UpdateStoryChapter.

Module DeleteStoryChapter.
Record Input := mk { id : string; storyId : string }.

Definition schema (i : Input) : list Issue :=
  min1 "id" (id i) ++ min1 "storyId" (storyId i).

Definition handler : Handler Input := fun input context rt =>
  user <- requireUser context ;;
  getOwnedChapter (id input) (storyId input) (App.id user) ;;
  delete_from StoryChapters (eq_ StoryChapters.id (id input)) ;;
  ret done.
End DeleteStoryChapter.

Module ListStoryChapters.
Record Input := mk { storyId : string; actId : option string }.

Definition schema (i : Input) : list Issue := min1 "storyId" (storyId i).

Definition handler : Handler Input := fun input context rt =>
  user <- requireUser context ;;
  getOwnedStory (storyId input) (App.id user) ;;
  when (truthy (actId input))
    (getOwnedAct (narrowed (actId input)) (storyId input) (App.id user) ;;
     ret tt) ;;
  chapters <- select_from StoryChapters
    (if truthy (actId input)
     then and_ (eq_ StoryChapters.storyId (storyId input))
               (eq_opt StoryChapters.actId (narrowed (actId input)))
     else eq_ StoryChapters.storyId (storyId input)) ;;
  ret (chapters_ chapters (length chapters)).
End ListStoryChapters.

(** ** Scenes *)

Module CreateStoryScene.
Record Input := mk {
  storyId : string;
  chapterId : option string;
  orderIndex : option Z;
  setting : option string;
  goal : option string;
  conflict : option string;
  outcome : option string;
  content : option string
}.

Definition schema (i : Input) : list Issue := min1 "storyId" (storyId i).

Definition handler : Handler Input := fun input context rt =>
  user <- requireUser context ;;
  getOwnedStory (storyId input) (App.id user) ;;
  when (truthy (chapterId input))
    (getOwnedChapter (narrowed (chapterId input)) (storyId input)
       (App.id user) ;;
     ret tt) ;;
  let now := now rt in
  inserted <- insert_into StoryScenes
    {| StoryScenes.id := randomUUID rt;
       StoryScenes.storyId := storyId input;
       StoryScenes.chapterId := chapterId input;   (* input.chapterId ?? null *)
       StoryScenes.orderIndex := assign (orderIndex input) 1%Z;
       StoryScenes.setting := setting input;
       StoryScenes.goal := goal input;
       StoryScenes.conflict := conflict input;
       StoryScenes.outcome := outcome input;
       StoryScenes.content := content input;
       StoryScenes.createdAt := now;
       StoryScenes.updatedAt := now |} ;;
  ret (scene_ (hd_error inserted)).
End CreateStoryScene.

Module UpdateStoryScene.
Record Input := mk {
  id : string;
  storyId : string;
  chapterId : option string;
  orderIndex : option Z;
  setting : option string;
  goal : option string;
  conflict : option string;
  outcome : option string;
  content : option string
}.

Definition schema (i : Input) : list Issue :=
  min1 "id" (id i) ++ min1 "storyId" (storyId i) ++
  refine (defined (chapterId i) || defined (orderIndex i) ||
          defined (setting i) || defined (goal i) || defined (conflict i) ||
          defined (outcome i) || defined (content i))
    "At least one field must be provided to update.".

Definition set (input : Input) (rt : Runtime) (r : StoryScenes.Row)
  : StoryScenes.Row :=
  {| StoryScenes.id := StoryScenes.id r;
     StoryScenes.storyId := StoryScenes.storyId r;
     StoryScenes.chapterId :=
       assign_opt (chapterId input) (StoryScenes.chapterId r);
     StoryScenes.orderIndex :=
       assign (orderIndex input) (StoryScenes.orderIndex r);
     StoryScenes.setting := assign_opt (setting input) (StoryScenes.setting r);
     StoryScenes.goal := assign_opt (goal input) (StoryScenes.goal r);
     StoryScenes.conflict :=
       assign_opt (conflict input) (StoryScenes.conflict r);
     StoryScenes.outcome := assign_opt (outcome input) (StoryScenes.outcome r);
     StoryScenes.content := assign_opt (content input) (StoryScenes.content r);
     StoryScenes.createdAt := StoryScenes.createdAt r;
     StoryScenes.updatedAt := now rt |}.

Definition handler : Handler Input := fun input context rt =>
  user <- requireUser context ;;
  getOwnedScene (id input) (storyId input) (App.id user) ;;
  when (defined (chapterId input))
    (getOwnedChapter (narrowed (chapterId input)) (storyId input)
       (App.id user) ;;
     ret tt) ;;
  updated <- update StoryScenes (set input rt)
               (eq_ StoryScenes.id (id input)) ;;
  ret (scene_ (hd_error updated)).
End UpdateStoryScene.

Module DeleteStoryScene.
Record Input := mk { id : string; storyId : string }.

Definition schema (i : Input) : list Issue :=
  min1 "id" (id i) ++ min1 "storyId" (storyId i).

Definition handler : Handler Input := fun input context rt =>
  user <- requireUser context ;;
  getOwnedScene (id input) (storyId input) (App.id user) ;;
  delete_from StoryScenes (eq_ StoryScenes.id (id input)) ;;
  ret done.
End DeleteStoryScene.

Module ListStoryScenes.
Record Input := mk { storyId : string; chapterId : option string }.

Definition schema (i : Input) : list Issue := min1 "storyId" (storyId i).

Definition handler : Handler Input := fun input context rt =>
  user <- requireUser context ;;
  getOwnedStory (storyId input) (App.id user) ;;
  when (truthy (chapterId input))
    (getOwnedChapter (narrowed (chapterId input)) (storyId input)
       (App.id user) ;;
     ret tt) ;;
  scenes <- select_from StoryScenes
    (if truthy (chapterId input)
     then and_ (eq_ StoryScenes.storyId (storyId input))
               (eq_opt StoryScenes.chapterId (narrowed (chapterId input)))
     else eq_ StoryScenes.storyId (storyId input)) ;;
  ret (scenes_ scenes (length scenes)).
End ListStoryScenes.

(** ** The [server] object *)

(** A call of a named action with its raw (well-typed) input. *)
Inductive Call :=
| createStory (input : CreateStory.Input)
| updateStory (input : UpdateStory.Input)
| listStories (input : ListStories.Input)
| createStoryAct (input : CreateStoryAct.Input)
| updateStoryAct (input : UpdateStoryAct.Input)
| deleteStoryAct (input : DeleteStoryAct.Input)
| listStoryActs (input : ListStoryActs.Input)
| createStoryChapter (input : CreateStoryChapter.Input)
| updateStoryChapter (input : UpdateStoryChapter.Input)
| deleteStoryChapter (input : DeleteStoryChapter.Input)
| listStoryChapters (input : ListStoryChapters.Input)
| createStoryScene (input : CreateStoryScene.Input)
| updateStoryScene (input : UpdateStoryScene.Input)
| deleteStoryScene (input : DeleteStoryScene.Input)
| listStoryScenes (input : ListStoryScenes.Input).

Definition server (c : Call) : ActionAPIContext -> Runtime -> Action Response :=
  match c with
  | createStory i => defineAction CreateStory.schema CreateStory.handler i
  | updateStory i => defineAction UpdateStory.schema UpdateStory.handler i
  | listStories i => defineAction ListStories.schema ListStories.handler i
  | createStoryAct i =>
      defineAction CreateStoryAct.schema CreateStoryAct.handler i
  | updateStoryAct i =>
      defineAction UpdateStoryAct.schema UpdateStoryAct.handler i
  | deleteStoryAct i =>
      defineAction DeleteStoryAct.schema DeleteStoryAct.handler i
  | listStoryActs i =>
      defineAction ListStoryActs.schema ListStoryActs.handler i
  | createStoryChapter i =>
      defineAction CreateStoryChapter.schema CreateStoryChapter.handler i
  | updateStoryChapter i =>
      defineAction UpdateStoryChapter.schema UpdateStoryChapter.handler i
  | deleteStoryChapter i =>
      defineAction DeleteStoryChapter.schema DeleteStoryChapter.handler i
  | listStoryChapters i =>
      defineAction ListStoryChapters.schema ListStoryChapters.handler i
  | createStoryScene i =>
      defineAction CreateStoryScene.schema CreateStoryScene.handler i
  | updateStoryScene i =>
      defineAction UpdateStoryScene.schema UpdateStoryScene.handler i
  | deleteStoryScene i =>
      defineAction DeleteStoryScene.schema DeleteStoryScene.handler i
  | listStoryScenes i =>
      defineAction ListStoryScenes.schema ListStoryScenes.handler i
  end.

(** The schema of each action, as [defineAction] applies it. *)
Definition schema (c : Call) : list Issue :=
  match c with
  | createStory i => CreateStory.schema i
  | updateStory i => UpdateStory.schema i
  | listStories i => ListStories.schema i
  | createStoryAct i => CreateStoryAct.schema i
  | updateStoryAct i => UpdateStoryAct.schema i
  | deleteStoryAct i => DeleteStoryAct.schema i
  | listStoryActs i => ListStoryActs.schema i
  | createStoryChapter i => CreateStoryChapter.schema i
  | updateStoryChapter i => UpdateStoryChapter.schema i
  | deleteStoryChapter i => DeleteStoryChapter.schema i
  | listStoryChapters i => ListStoryChapters.schema i
  | createStoryScene i => CreateStoryScene.schema i
  | updateStoryScene i => UpdateStoryScene.schema i
  | deleteStoryScene i => DeleteStoryScene.schema i
  | listStoryScenes i => ListStoryScenes.schema i
  end.

(** ** Vocabulary of the properties *)

(** The statements of a log that change the store. *)
Definition writes (l : list Stmt) : list Stmt := filter is_write l.

(** User [userId] owns a story [storyId] in [d]. *)
Definition owns (d : DB) (userId storyId : string) : Prop :=
  exists s, In s (tblStories d) /\
            Stories.id s = storyId /\ Stories.userId s = userId.

(** The story an action on an Act, a Chapter or a Scene names as the root of
    the entity it works on. *)
Definition storyId_of (c : Call) : option string :=
  match c with
  | createStory _ | updateStory _ | listStories _ => None
  | createStoryAct i => Some (CreateStoryAct.storyId i)
  | updateStoryAct i => Some (UpdateStoryAct.storyId i)
  | deleteStoryAct i => Some (DeleteStoryAct.storyId i)
  | listStoryActs i => Some (ListStoryActs.storyId i)
  | createStoryChapter i => Some (CreateStoryChapter.storyId i)
  | updateStoryChapter i => Some (UpdateStoryChapter.storyId i)
  | deleteStoryChapter i => Some (DeleteStoryChapter.storyId i)
  | listStoryChapters i => Some (ListStoryChapters.storyId i)
  | createStoryScene i => Some (CreateStoryScene.storyId i)
  | updateStoryScene i => Some (UpdateStoryScene.storyId i)
  | deleteStoryScene i => Some (DeleteStoryScene.storyId i)
  | listStoryScenes i => Some (ListStoryScenes.storyId i)
  end.

(** The one statement a create, update or delete action runs on the
    datastore once its gates are passed; a list action runs none. *)
Definition statement_of (c : Call) : list Stmt :=
  match c with
  | createStory _ => [Insert Stories_]
  | updateStory _ => [Update Stories_]
  | createStoryAct _ => [Insert StoryActs_]
  | updateStoryAct _ => [Update StoryActs_]
  | deleteStoryAct _ => [Delete StoryActs_]
  | createStoryChapter _ => [Insert StoryChapters_]
  | updateStoryChapter _ => [Update StoryChapters_]
  | deleteStoryChapter _ => [Delete StoryChapters_]
  | createStoryScene _ => [Insert StoryScenes_]
  | updateStoryScene _ => [Update StoryScenes_]
  | deleteStoryScene _ => [Delete StoryScenes_]
  | listStories _ | listStoryActs _ | listStoryChapters _
  | listStoryScenes _ => []
  end.

(** The table an action works on. *)
Definition table_of (c : Call) : TableName :=
  match c with
  | createStory _ | updateStory _ | listStories _ => Stories_
  | createStoryAct _ | updateStoryAct _ | deleteStoryAct _
  | listStoryActs _ => StoryActs_
  | createStoryChapter _ | updateStoryChapter _ | deleteStoryChapter _
  | listStoryChapters _ => StoryChapters_
  | createStoryScene _ | updateStoryScene _ | deleteStoryScene _
  | listStoryScenes _ => StoryScenes_
  end.

(** The statements of a log that only read. *)
Definition reads (l : list Stmt) : list Stmt :=
  filter (fun s => negb (is_write s)) l.

(** The tables an action does not work on are the same in [d] and [d']. *)
Definition other_tables_kept (t : TableName) (d d' : DB) : Prop :=
  (t <> Stories_ -> tblStories d' = tblStories d) /\
  (t <> StoryActs_ -> tblStoryActs d' = tblStoryActs d) /\
  (t <> StoryChapters_ -> tblStoryChapters d' = tblStoryChapters d) /\
  (t <> StoryScenes_ -> tblStoryScenes d' = tblStoryScenes d).

(** An update payload that sets none of the mutable fields of its action. *)
Definition empty_update (c : Call) : Prop :=
  match c with
  | updateStory i =>
      UpdateStory.title i = None /\ UpdateStory.logline i = None /\
      UpdateStory.genre i = None /\ UpdateStory.targetAudience i = None /\
      UpdateStory.status i = None /\ UpdateStory.notes i = None
  | updateStoryAct i =>
      UpdateStoryAct.orderIndex i = None /\ UpdateStoryAct.title i = None /\
      UpdateStoryAct.summary i = None
  | updateStoryChapter i =>
      UpdateStoryChapter.actId i = None /\
      UpdateStoryChapter.orderIndex i = None /\
      UpdateStoryChapter.title i = None /\
      UpdateStoryChapter.povCharacter i = None /\
      UpdateStoryChapter.summary i = None
  | updateStoryScene i =>
      UpdateStoryScene.chapterId i = None /\
      UpdateStoryScene.orderIndex i = None /\
      UpdateStoryScene.setting i = None /\ UpdateStoryScene.goal i = None /\
      UpdateStoryScene.conflict i = None /\
      UpdateStoryScene.outcome i = None /\ UpdateStoryScene.content i = None
  | _ => False
  end.

(** The action failed with NOT_FOUND and left the store as it was, having
    run no write statement. *)
Definition not_found_before_write (r : Run Response) (d : DB) : Prop :=
  exists e, outcome r = inl e /\ kind e = NotFound /\
            store r = d /\ writes (log r) = [].

(** The stories of the stored rows an update or a delete of an Act, a Chapter
    or a Scene addresses by id: the storyId of every row of the table under
    the input's id. *)
Definition target_stories (d : DB) (c : Call) : option (list string) :=
  match c with
  | updateStoryAct i =>
      Some (map StoryActs.storyId
              (filter (eq_ StoryActs.id (UpdateStoryAct.id i))
                 (tblStoryActs d)))
  | deleteStoryAct i =>
      Some (map StoryActs.storyId
              (filter (eq_ StoryActs.id (DeleteStoryAct.id i))
                 (tblStoryActs d)))
  | updateStoryChapter i =>
      Some (map StoryChapters.storyId
              (filter (eq_ StoryChapters.id (UpdateStoryChapter.id i))
                 (tblStoryChapters d)))
  | deleteStoryChapter i =>
      Some (map StoryChapters.storyId
              (filter (eq_ StoryChapters.id (DeleteStoryChapter.id i))
                 (tblStoryChapters d)))
  | updateStoryScene i =>
      Some (map StoryScenes.storyId
              (filter (eq_ StoryScenes.id (UpdateStoryScene.id i))
                 (tblStoryScenes d)))
  | deleteStoryScene i =>
      Some (map StoryScenes.storyId
              (filter (eq_ StoryScenes.id (DeleteStoryScene.id i))
                 (tblStoryScenes d)))
  | _ => None
  end.

Definition unauthorized : Failure :=
  ActionError UNAUTHORIZED "You must be signed in to perform this action.".

Definition no_field_message : string :=
  "At least one field must be provided to update.".

(** The condition of the story lookup of [getOwnedStory]. *)
Definition owned_story_cond (storyId userId : string) : Cond Stories.Row :=
  and_ (eq_ Stories.id storyId) (eq_ Stories.userId userId).

(** The rows of a table after an update with [set] and [where]. *)
Definition rewrite_rows {R} (set : R -> R) (w : Cond R) (l : list R)
  : list R :=
  map (fun r => if w r then set r else r) l.


(** ** Frames of the updates *)

(** What a conditional spread does to a column: the supplied value, or the
    stored one. *)
Definition sets {A} (field : option A) (old new : A) : Prop :=
  match field with Some v => new = v | None => new = old end.

Definition sets_opt {A} (field : option A) (old new : option A) : Prop :=
  match field with Some v => new = Some v | None => new = old end.

Definition story_updated (i : UpdateStory.Input) (t : Date)
           (old new : Stories.Row) : Prop :=
  Stories.id new = Stories.id old /\
  Stories.userId new = Stories.userId old /\
  Stories.createdAt new = Stories.createdAt old /\
  sets (UpdateStory.title i) (Stories.title old) (Stories.title new) /\
  sets_opt (UpdateStory.logline i) (Stories.logline old)
    (Stories.logline new) /\
  sets_opt (UpdateStory.genre i) (Stories.genre old) (Stories.genre new) /\
  sets_opt (UpdateStory.targetAudience i) (Stories.targetAudience old)
    (Stories.targetAudience new) /\
  sets_opt (UpdateStory.status i) (Stories.status old) (Stories.status new) /\
  sets_opt (UpdateStory.notes i) (Stories.notes old) (Stories.notes new) /\
  Stories.updatedAt new = t.

Definition act_updated (i : UpdateStoryAct.Input)
           (old new : StoryActs.Row) : Prop :=
  StoryActs.id new = StoryActs.id old /\
  StoryActs.storyId new = StoryActs.storyId old /\
  StoryActs.createdAt new = StoryActs.createdAt old /\
  sets (UpdateStoryAct.orderIndex i) (StoryActs.orderIndex old)
    (StoryActs.orderIndex new) /\
  sets_opt (UpdateStoryAct.title i) (StoryActs.title old)
    (StoryActs.title new) /\
  sets_opt (UpdateStoryAct.summary i) (StoryActs.summary old)
    (StoryActs.summary new).

Definition chapter_updated (i : UpdateStoryChapter.Input) (t : Date)
           (old new : StoryChapters.Row) : Prop :=
  StoryChapters.id new = StoryChapters.id old /\
  StoryChapters.storyId new = StoryChapters.storyId old /\
  StoryChapters.createdAt new = StoryChapters.createdAt old /\
  sets_opt (UpdateStoryChapter.actId i) (StoryChapters.actId old)
    (StoryChapters.actId new) /\
  sets (UpdateStoryChapter.orderIndex i) (StoryChapters.orderIndex old)
    (StoryChapters.orderIndex new) /\
  sets_opt (UpdateStoryChapter.title i) (StoryChapters.title old)
    (StoryChapters.title new) /\
  sets_opt (UpdateStoryChapter.povCharacter i) (StoryChapters.povCharacter old)
    (StoryChapters.povCharacter new) /\
  sets_opt (UpdateStoryChapter.summary i) (StoryChapters.summary old)
    (StoryChapters.summary new) /\
  StoryChapters.updatedAt new = t.

Definition scene_updated (i : UpdateStoryScene.Input) (t : Date)
           (old new : StoryScenes.Row) : Prop :=
  StoryScenes.id new = StoryScenes.id old /\
  StoryScenes.storyId new = StoryScenes.storyId old /\
  StoryScenes.createdAt new = StoryScenes.createdAt old /\
  sets_opt (UpdateStoryScene.chapterId i) (StoryScenes.chapterId old)
    (StoryScenes.chapterId new) /\
  sets (UpdateStoryScene.orderIndex i) (StoryScenes.orderIndex old)
    (StoryScenes.orderIndex new) /\
  sets_opt (UpdateStoryScene.setting i) (StoryScenes.setting old)
    (StoryScenes.setting new) /\
  sets_opt (UpdateStoryScene.goal i) (StoryScenes.goal old)
    (StoryScenes.goal new) /\
  sets_opt (UpdateStoryScene.conflict i) (StoryScenes.conflict old)
    (StoryScenes.conflict new) /\
  sets_opt (UpdateStoryScene.outcome i) (StoryScenes.outcome old)
    (StoryScenes.outcome new) /\
  sets_opt (UpdateStoryScene.content i) (StoryScenes.content old)
    (StoryScenes.content new) /\
  StoryScenes.updatedAt new = t.

(** The primary key of a table: no two rows share an id. *)
Definition primary_key {R} (id : R -> string) (l : list R) : Prop :=
  NoDup (map id l).

(** An integer that JavaScript represents exactly, which the driver reads
    back as it was written. *)
Definition safe_integer (n : Z) : Prop := (Z.abs n < 2 ^ 53)%Z.

(** Every stored orderIndex is a safe integer, so that the driver can hand
    any stored row to a lookup. *)
Definition integers_safe (d : DB) : Prop :=
  Forall (fun a => safe_integer (StoryActs.orderIndex a)) (tblStoryActs d) /\
  Forall (fun c => safe_integer (StoryChapters.orderIndex c))
    (tblStoryChapters d) /\
  Forall (fun s => safe_integer (StoryScenes.orderIndex s))
    (tblStoryScenes d).

(** The rows of a table without those that [w] selects. *)
Definition without {R} (w : Cond R) (l : list R) : list R :=
  filter (fun r => negb (w r)) l.

(** What the one statement of an action does to the table of the action: an
    insert appends one row under the generated id, an update rewrites the
    rows under the input's id, a delete removes them; a list action changes
    nothing. *)
Definition statement_effect (c : Call) (rt : Runtime) (d d' : DB) : Prop :=
  match c with
  | createStory _ =>
      exists r, Stories.id r = randomUUID rt /\
                tblStories d' = tblStories d ++ [r]
  | createStoryAct _ =>
      exists r, StoryActs.id r = randomUUID rt /\
                tblStoryActs d' = tblStoryActs d ++ [r]
  | createStoryChapter _ =>
      exists r, StoryChapters.id r = randomUUID rt /\
                tblStoryChapters d' = tblStoryChapters d ++ [r]
  | createStoryScene _ =>
      exists r, StoryScenes.id r = randomUUID rt /\
                tblStoryScenes d' = tblStoryScenes d ++ [r]
  | updateStory i =>
      tblStories d' =
        rewrite_rows (UpdateStory.set i rt)
          (eq_ Stories.id (UpdateStory.id i)) (tblStories d)
  | updateStoryAct i =>
      tblStoryActs d' =
        rewrite_rows (UpdateStoryAct.set i)
          (eq_ StoryActs.id (UpdateStoryAct.id i)) (tblStoryActs d)
  | updateStoryChapter i =>
      tblStoryChapters d' =
        rewrite_rows (UpdateStoryChapter.set i rt)
          (eq_ StoryChapters.id (UpdateStoryChapter.id i))
          (tblStoryChapters d)
  | updateStoryScene i =>
      tblStoryScenes d' =
        rewrite_rows (UpdateStoryScene.set i rt)
          (eq_ StoryScenes.id (UpdateStoryScene.id i)) (tblStoryScenes d)
  | deleteStoryAct i =>
      tblStoryActs d' =
        without (eq_ StoryActs.id (DeleteStoryAct.id i)) (tblStoryActs d)
  | deleteStoryChapter i =>
      tblStoryChapters d' =
        without (eq_ StoryChapters.id (DeleteStoryChapter.id i))
          (tblStoryChapters d)
  | deleteStoryScene i =>
      tblStoryScenes d' =
        without (eq_ StoryScenes.id (DeleteStoryScene.id i))
          (tblStoryScenes d)
  | listStories _ | listStoryActs _ | listStoryChapters _
  | listStoryScenes _ => d' = d
  end.

(** ** A worked scenario *)

Definition alice : App.User := App.mkUser "u1".
Definition bob : App.User := App.mkUser "u2".

Definition signed_in (u : App.User) : ActionAPIContext :=
  mkContext (Some (App.mkLocals (Some u))).

Definition anonymous : ActionAPIContext :=
  mkContext (Some (App.mkLocals None)).

Definition empty_db : DB := mkDB [] [] [] [].

(** Alice creates the story S1, the act A1 in it, and the chapter C1 under
    A1. *)
Definition novel : Stories.Row :=
  Stories.mk "S1" "u1" "Novel A" None None None None None 100%Z 100%Z.
Definition first_act : StoryActs.Row :=
  StoryActs.mk "A1" "S1" 1%Z None None 101%Z.
Definition first_chapter : StoryChapters.Row :=
  StoryChapters.mk "C1" "S1" (Some "A1") 1%Z None None None 102%Z 102%Z.

Definition run_createStory : Run Response :=
  server (createStory (CreateStory.mk "Novel A" None None None None None))
    (signed_in alice) (mkRuntime "S1" 100%Z) empty_db.
Definition db_story : DB := store run_createStory.

Definition run_createStoryAct : Run Response :=
  server (createStoryAct (CreateStoryAct.mk "S1" None None None))
    (signed_in alice) (mkRuntime "A1" 101%Z) db_story.
Definition db_act : DB := store run_createStoryAct.

Definition run_createStoryChapter : Run Response :=
  server (createStoryChapter
            (CreateStoryChapter.mk "S1" (Some "A1") None None None None))
    (signed_in alice) (mkRuntime "C1" 102%Z) db_act.
Definition db_chapter : DB := store run_createStoryChapter.

(** She deletes A1: once C1 is under it, and before. *)
Definition delete_first_act : Call :=
  deleteStoryAct (DeleteStoryAct.mk "A1" "S1").
Definition run_deleteStoryAct : Run Response :=
  server delete_first_act (signed_in alice) (mkRuntime "unused" 103%Z)
    db_chapter.
Definition run_deleteStoryAct_unreferenced : Run Response :=
  server delete_first_act (signed_in alice) (mkRuntime "unused" 103%Z)
    db_act.

(** She adds a chapter C2 under no act and a scene N1 under no chapter, all
    defaults. *)
Definition second_chapter : StoryChapters.Row :=
  StoryChapters.mk "C2" "S1" None 1%Z None None None 105%Z 105%Z.
Definition first_scene : StoryScenes.Row :=
  StoryScenes.mk "N1" "S1" None 1%Z None None None None None 106%Z 106%Z.

Definition run_createStoryChapter_plain : Run Response :=
  server (createStoryChapter
            (CreateStoryChapter.mk "S1" None None None None None))
    (signed_in alice) (mkRuntime "C2" 105%Z) db_chapter.

Definition run_createStoryScene : Run Response :=
  server (createStoryScene
            (CreateStoryScene.mk "S1" None None None None None None None))
    (signed_in alice) (mkRuntime "N1" 106%Z) db_chapter.
Definition db_scene : DB := store run_createStoryScene.

(** Updates of one field. *)
Definition retitle_story : Call :=
  updateStory (UpdateStory.mk "S1" (Some "Novel B") None None None None None).
Definition run_retitle_story : Run Response :=
  server retitle_story (signed_in alice) (mkRuntime "unused" 200%Z) db_story.

Definition retitle_act : Call :=
  updateStoryAct (UpdateStoryAct.mk "A1" "S1" None (Some "Opening") None).
Definition run_retitle_act : Run Response :=
  server retitle_act (signed_in alice) (mkRuntime "unused" 201%Z) db_scene.

Definition retitle_chapter : Call :=
  updateStoryChapter
    (UpdateStoryChapter.mk "C1" "S1" None None (Some "One") None None).
Definition run_retitle_chapter : Run Response :=
  server retitle_chapter (signed_in alice) (mkRuntime "unused" 202%Z)
    db_scene.

Definition place_scene : Call :=
  updateStoryScene
    (UpdateStoryScene.mk "N1" "S1" None None (Some "Harbour") None None None
       None).
Definition run_place_scene : Run Response :=
  server place_scene (signed_in alice) (mkRuntime "unused" 203%Z) db_scene.

Definition empty_story_update : Call :=
  updateStory (UpdateStory.mk "S1" None None None None None None).

(** Bob, who owns no story, addresses Alice's act: with a field, and with
    none. *)
Definition bob_updates_act : Call :=
  updateStoryAct (UpdateStoryAct.mk "A1" "S1" None (Some "Mine") None).
Definition bob_updates_nothing : Call :=
  updateStoryAct (UpdateStoryAct.mk "A1" "S1" None None None).

(** Bob creates a story S2 next to Alice's, and A1 is named from S2: by
    nobody, and by Bob for a chapter with no id. *)
Definition db_two : DB :=
  store (server (createStory (CreateStory.mk "Novel Z" None None None None
                                None))
           (signed_in bob) (mkRuntime "S2" 120%Z) db_chapter).
Definition chapter_under_foreign_act : Call :=
  createStoryChapter
    (CreateStoryChapter.mk "S2" (Some "A1") None None None None).
Definition nameless_chapter_under_foreign_act : Call :=
  updateStoryChapter
    (UpdateStoryChapter.mk "" "S2" (Some "A1") None None None None).

(** An act at position 2^53, the first integer JavaScript cannot tell from
    its successor. *)
Definition far_act : StoryActs.Row :=
  StoryActs.mk "A2" "S1" (2 ^ 53)%Z None None 110%Z.
Definition run_create_far_act : Run Response :=
  server (createStoryAct (CreateStoryAct.mk "S1" (Some (2 ^ 53)%Z) None None))
    (signed_in alice) (mkRuntime "A2" 110%Z) db_story.

(** A chapter under the act whose id is the empty string. *)
Definition run_createStoryChapter_empty_actId : Run Response :=
  server (createStoryChapter
            (CreateStoryChapter.mk "S1" (Some "") None None None None))
    (signed_in alice) (mkRuntime "C3" 111%Z) db_story.

(** ** Vocabulary of the further properties *)

(** The columns of a story that identify it and its owner. *)
Definition story_key (s : Stories.Row) : string * string * Date :=
  (Stories.id s, Stories.userId s, Stories.createdAt s).

(** The strings of an input that its schema declares with [min(1)]; the
    title of updateStory counts when it is supplied. *)
Definition required_strings (c : Call) : list string :=
  match c with
  | createStory i => [CreateStory.title i]
  | updateStory i =>
      UpdateStory.id i ::
      match UpdateStory.title i with Some t => [t] | None => [] end
  | listStories _ => []
  | createStoryAct i => [CreateStoryAct.storyId i]
  | updateStoryAct i => [UpdateStoryAct.id i; UpdateStoryAct.storyId i]
  | deleteStoryAct i => [DeleteStoryAct.id i; DeleteStoryAct.storyId i]
  | listStoryActs i => [ListStoryActs.storyId i]
  | createStoryChapter i => [CreateStoryChapter.storyId i]
  | updateStoryChapter i =>
      [UpdateStoryChapter.id i; UpdateStoryChapter.storyId i]
  | deleteStoryChapter i =>
      [DeleteStoryChapter.id i; DeleteStoryChapter.storyId i]
  | listStoryChapters i => [ListStoryChapters.storyId i]
  | createStoryScene i => [CreateStoryScene.storyId i]
  | updateStoryScene i => [UpdateStoryScene.id i; UpdateStoryScene.storyId i]
  | deleteStoryScene i => [DeleteStoryScene.id i; DeleteStoryScene.storyId i]
  | listStoryScenes i => [ListStoryScenes.storyId i]
  end.

(** Story [storyId] has an act, a chapter, a scene stored under [id]. *)
Definition has_act (d : DB) (id storyId : string) : Prop :=
  exists r, In r (tblStoryActs d) /\
            StoryActs.id r = id /\ StoryActs.storyId r = storyId.

Definition has_chapter (d : DB) (id storyId : string) : Prop :=
  exists r, In r (tblStoryChapters d) /\
            StoryChapters.id r = id /\ StoryChapters.storyId r = storyId.

Definition has_scene (d : DB) (id storyId : string) : Prop :=
  exists r, In r (tblStoryScenes d) /\
            StoryScenes.id r = id /\ StoryScenes.storyId r = storyId.

(** What the ownership gates of an action ask of the store, for a caller
    [uid]: the named story is the caller's, the target entity is stored
    under that story, and so is the ancestor the input links to.  The create
    and list actions look a linked ancestor up only when its id is a
    non-empty string. *)
Definition admissible (d : DB) (uid : string) (c : Call) : Prop :=
  match c with
  | createStory _ | listStories _ => True
  | updateStory i => owns d uid (UpdateStory.id i)
  | createStoryAct i => owns d uid (CreateStoryAct.storyId i)
  | updateStoryAct i =>
      owns d uid (UpdateStoryAct.storyId i) /\
      has_act d (UpdateStoryAct.id i) (UpdateStoryAct.storyId i)
  | deleteStoryAct i =>
      owns d uid (DeleteStoryAct.storyId i) /\
      has_act d (DeleteStoryAct.id i) (DeleteStoryAct.storyId i)
  | listStoryActs i => owns d uid (ListStoryActs.storyId i)
  | createStoryChapter i =>
      owns d uid (CreateStoryChapter.storyId i) /\
      (forall a, CreateStoryChapter.actId i = Some a -> a <> "" ->
                 has_act d a (CreateStoryChapter.storyId i))
  | updateStoryChapter i =>
      owns d uid (UpdateStoryChapter.storyId i) /\
      has_chapter d (UpdateStoryChapter.id i) (UpdateStoryChapter.storyId i) /\
      (forall a, UpdateStoryChapter.actId i = Some a ->
                 has_act d a (UpdateStoryChapter.storyId i))
  | deleteStoryChapter i =>
      owns d uid (DeleteStoryChapter.storyId i) /\
      has_chapter d (DeleteStoryChapter.id i) (DeleteStoryChapter.storyId i)
  | listStoryChapters i =>
      owns d uid (ListStoryChapters.storyId i) /\
      (forall a, ListStoryChapters.actId i = Some a -> a <> "" ->
                 has_act d a (ListStoryChapters.storyId i))
  | createStoryScene i =>
      owns d uid (CreateStoryScene.storyId i) /\
      (forall a, CreateStoryScene.chapterId i = Some a -> a <> "" ->
                 has_chapter d a (CreateStoryScene.storyId i))
  | updateStoryScene i =>
      owns d uid (UpdateStoryScene.storyId i) /\
      has_scene d (UpdateStoryScene.id i) (UpdateStoryScene.storyId i) /\
      (forall a, UpdateStoryScene.chapterId i = Some a ->
                 has_chapter d a (UpdateStoryScene.storyId i))
  | deleteStoryScene i =>
      owns d uid (DeleteStoryScene.storyId i) /\
      has_scene d (DeleteStoryScene.id i) (DeleteStoryScene.storyId i)
  | listStoryScenes i =>
      owns d uid (ListStoryScenes.storyId i) /\
      (forall a, ListStoryScenes.chapterId i = Some a -> a <> "" ->
                 has_chapter d a (ListStoryScenes.storyId i))
  end.

(** The ids stored in a table. *)
Definition stored_ids (d : DB) (t : TableName) : list string :=
  match t with
  | Stories_ => map Stories.id (tblStories d)
  | StoryActs_ => map StoryActs.id (tblStoryActs d)
  | StoryChapters_ => map StoryChapters.id (tblStoryChapters d)
  | StoryScenes_ => map StoryScenes.id (tblStoryScenes d)
  end.

(** Every table has its primary key: [id] is declared [primaryKey] in each
    [defineTable]. *)
Definition keys_ok (d : DB) : Prop :=
  primary_key Stories.id (tblStories d) /\
  primary_key StoryActs.id (tblStoryActs d) /\
  primary_key StoryChapters.id (tblStoryChapters d) /\
  primary_key StoryScenes.id (tblStoryScenes d).

(** What the foreign keys ask of the statement of an action: the ancestor a
    created chapter or scene is given is the id of a stored act or chapter,
    and no chapter (scene) references the act (chapter) to delete. *)
Definition references_accepted (d : DB) (c : Call) : Prop :=
  match c with
  | createStoryChapter i =>
      forall a, CreateStoryChapter.actId i = Some a ->
                In a (stored_ids d StoryActs_)
  | createStoryScene i =>
      forall a, CreateStoryScene.chapterId i = Some a ->
                In a (stored_ids d StoryChapters_)
  | deleteStoryAct i =>
      forall chapter, In chapter (tblStoryChapters d) ->
                      StoryChapters.actId chapter <> Some (DeleteStoryAct.id i)
  | deleteStoryChapter i =>
      forall scene, In scene (tblStoryScenes d) ->
                    StoryScenes.chapterId scene <>
                    Some (DeleteStoryChapter.id i)
  | _ => True
  end.

(** What the primary key asks of the insert of a create action: the
    generated id is not yet the id of a row of its table. *)
Definition key_accepted (d : DB) (rt : Runtime) (c : Call) : Prop :=
  match c with
  | createStory _ | createStoryAct _ | createStoryChapter _
  | createStoryScene _ => ~ In (randomUUID rt) (stored_ids d (table_of c))
  | _ => True
  end.

(** The orderIndex of every row the statement of an action writes is a safe
    integer. *)
Definition numbers_safe (d : DB) (c : Call) : Prop :=
  match c with
  | createStoryAct i =>
      safe_integer (assign (CreateStoryAct.orderIndex i) 1%Z)
  | createStoryChapter i =>
      safe_integer (assign (CreateStoryChapter.orderIndex i) 1%Z)
  | createStoryScene i =>
      safe_integer (assign (CreateStoryScene.orderIndex i) 1%Z)
  | updateStoryAct i =>
      forall r, In r (tblStoryActs d) ->
                StoryActs.id r = UpdateStoryAct.id i ->
                safe_integer (assign (UpdateStoryAct.orderIndex i)
                                (StoryActs.orderIndex r))
  | updateStoryChapter i =>
      forall r, In r (tblStoryChapters d) ->
                StoryChapters.id r = UpdateStoryChapter.id i ->
                safe_integer (assign (UpdateStoryChapter.orderIndex i)
                                (StoryChapters.orderIndex r))
  | updateStoryScene i =>
      forall r, In r (tblStoryScenes d) ->
                StoryScenes.id r = UpdateStoryScene.id i ->
                safe_integer (assign (UpdateStoryScene.orderIndex i)
                                (StoryScenes.orderIndex r))
  | _ => True
  end.

(** User [uid] owns story [sid] in [d], as a test. *)
Definition owned_by (d : DB) (uid sid : string) : bool :=
  existsb (owned_story_cond sid uid) (tblStories d).

(** The stories that are not [uid]'s. *)
Definition stories_of_others (uid : string) (l : list Stories.Row)
  : list Stories.Row :=
  filter (fun s => negb (String.eqb (Stories.userId s) uid)) l.

(** The rows of a table of acts, chapters or scenes that belong to no story
    [uid] owns in [d]. *)
Definition rows_of_others {R} (d : DB) (uid : string) (storyId : R -> string)
           (l : list R) : list R :=
  filter (fun r => negb (owned_by d uid (storyId r))) l.

(** Every act, chapter and scene names a stored story. *)
Definition stories_exist (d : DB) : Prop :=
  incl (map StoryActs.storyId (tblStoryActs d)) (stored_ids d Stories_) /\
  incl (map StoryChapters.storyId (tblStoryChapters d))
    (stored_ids d Stories_) /\
  incl (map StoryScenes.storyId (tblStoryScenes d)) (stored_ids d Stories_).

(** The id a delete action removes. *)
Definition deletes (c : Call) : option string :=
  match c with
  | deleteStoryAct i => Some (DeleteStoryAct.id i)
  | deleteStoryChapter i => Some (DeleteStoryChapter.id i)
  | deleteStoryScene i => Some (DeleteStoryScene.id i)
  | _ => None
  end.


(** The message of the NOT_FOUND error of the lookup in each table. *)
Definition not_found_message (t : TableName) : string :=
  match t with
  | Stories_ => "Story not found."
  | StoryActs_ => "Act not found."
  | StoryChapters_ => "Chapter not found."
  | StoryScenes_ => "Scene not found."
  end.

(** Alice updates an act that S1 does not have. *)
Definition alice_updates_missing_act : Call :=
  updateStoryAct (UpdateStoryAct.mk "A9" "S1" None (Some "Lost") None).

Definition later : Runtime := mkRuntime "unused" 300%Z.

(** The delete that addresses the row a create action inserts. *)
Definition undo (c : Call) (rt : Runtime) : option Call :=
  match c with
  | createStoryAct i =>
      Some (deleteStoryAct
              (DeleteStoryAct.mk (randomUUID rt) (CreateStoryAct.storyId i)))
  | createStoryChapter i =>
      Some (deleteStoryChapter
              (DeleteStoryChapter.mk (randomUUID rt)
                 (CreateStoryChapter.storyId i)))
  | createStoryScene i =>
      Some (deleteStoryScene
              (DeleteStoryScene.mk (randomUUID rt)
                 (CreateStoryScene.storyId i)))
  | _ => None
  end.

(** The shape of the answer of each action: the row of a create or an update
    is present, a list carries its items and their number, a delete carries
    nothing. *)
Definition well_shaped (c : Call) (resp : Response) : Prop :=
  match c, resp with
  | (createStory _ | updateStory _), story_ (Some _) => True
  | (createStoryAct _ | updateStoryAct _), act_ (Some _) => True
  | (createStoryChapter _ | updateStoryChapter _), chapter_ (Some _) => True
  | (createStoryScene _ | updateStoryScene _), scene_ (Some _) => True
  | listStories _, stories_ items total => total = length items
  | listStoryActs _, acts_ items total => total = length items
  | listStoryChapters _, chapters_ items total => total = length items
  | listStoryScenes _, scenes_ items total => total = length items
  | (deleteStoryAct _ | deleteStoryChapter _ | deleteStoryScene _), done =>
      True
  | _, _ => False
  end.

(** ** References between the tables *)

(** Every row of [cs] that links to a parent names, through [clink], a row
    of [ps] that belongs to its own story. *)
Definition linked {P C} (pid psid : P -> string) (clink : C -> option string)
           (csid : C -> string) (ps : list P) (cs : list C) : Prop :=
  forall c k, In c cs -> clink c = Some k ->
              exists p, In p ps /\ pid p = k /\ psid p = csid c.

(** A store whose references are in order: the primary keys hold, no act and
    no chapter is stored under the empty id, the actId of every chapter
    names an act of the chapter's story, and the chapterId of every scene
    names a chapter of the scene's story. *)
Definition links_ok (d : DB) : Prop :=
  keys_ok d /\
  ~ In "" (stored_ids d StoryActs_) /\
  ~ In "" (stored_ids d StoryChapters_) /\
  linked StoryActs.id StoryActs.storyId
    StoryChapters.actId StoryChapters.storyId
    (tblStoryActs d) (tblStoryChapters d) /\
  linked StoryChapters.id StoryChapters.storyId
    StoryScenes.chapterId StoryScenes.storyId
    (tblStoryChapters d) (tblStoryScenes d).

(** The foreign keys between acts, chapters and scenes hold in [d]: the
    actId of a chapter is the id of a stored act, the chapterId of a scene
    the id of a stored chapter. *)
Definition references_hold (d : DB) : Prop :=
  (forall chapter a,
      In chapter (tblStoryChapters d) ->
      StoryChapters.actId chapter = Some a ->
      In a (stored_ids d StoryActs_)) /\
  (forall scene k,
      In scene (tblStoryScenes d) ->
      StoryScenes.chapterId scene = Some k ->
      In k (stored_ids d StoryChapters_)).

(** What is taken of [crypto.randomUUID()]: the id it yields for a call is
    not the empty string, and not the id of a row of the table the call
    inserts into. *)
Definition fresh_id (c : Call) (rt : Runtime) (d : DB) : Prop :=
  randomUUID rt <> "" /\ ~ In (randomUUID rt) (stored_ids d (table_of c)).

(** The stores that calls of the actions reach from the empty datastore,
    whoever calls and whatever the outcome of each call. *)
Inductive reachable : DB -> Prop :=
| reach_empty : reachable empty_db
| reach_call (c : Call) ctx rt d :
    reachable d -> fresh_id c rt d -> reachable (store (server c ctx rt d)).

(** * Properties *)

(** ** Selections *)

Lemma filter_nil_none {A} (w : A -> bool) (l : list A) :
  filter w l = [] -> forall x, In x l -> w x = false.
Proof.
  induction l as [|a l IH]; simpl; intros E x Hx; [contradiction|].
  destruct (w a) eqn:Wa; [discriminate|].
  destruct Hx as [->|Hx]; auto.
Qed.

Lemma filter_head_in {A} (w : A -> bool) (l : list A) x rest :
  filter w l = x :: rest -> In x l /\ w x = true.
Proof.
  intros E. apply filter_In. rewrite E. now left.
Qed.

(** ** Running an action symbolically *)

Ltac unfold_actions :=
  unfold server, defineAction,
    CreateStory.handler, UpdateStory.handler, ListStories.handler,
    CreateStoryAct.handler, UpdateStoryAct.handler, DeleteStoryAct.handler,
    ListStoryActs.handler, CreateStoryChapter.handler,
    UpdateStoryChapter.handler, DeleteStoryChapter.handler,
    ListStoryChapters.handler, CreateStoryScene.handler,
    UpdateStoryScene.handler, DeleteStoryScene.handler,
    ListStoryScenes.handler,
    requireUser, getOwnedAct, getOwnedChapter, getOwnedScene, getOwnedStory,
    when, bind, ret, throw, select_from, insert_into, update, delete_from,
    returning;
  cbn.

(** Split on the next test the action makes: the schema, the caller, a
    selection, the presence of an optional ancestor, or a check of the
    engine.  A test on the store of an earlier call waits until that call is
    settled. *)
Ltac settled t :=
  lazymatch t with
  | context [if _ then _ else _] => fail
  | context [match _ with [] => _ | _ :: _ => _ end] => fail
  | context [match _ with Some _ => _ | None => _ end] => fail
  | context [match _ with inl _ => _ | inr _ => _ end] => fail
  | _ => idtac
  end.

Ltac case_step :=
  match goal with
  | |- context [match filter ?w ?l with _ => _ end] =>
      settled l; let E := fresh "Sel" in destruct (filter w l) eqn:E
  | |- context [match locals_user ?c with _ => _ end] =>
      let E := fresh "Usr" in destruct (locals_user c) eqn:E
  | |- context [match ?s with [] => _ | _ => _ end] =>
      settled s; let E := fresh "Sch" in destruct s eqn:E
  | |- context [if truthy ?x then _ else _] =>
      let E := fresh "Tr" in destruct (truthy x) eqn:E
  | |- context [if defined ?x then _ else _] =>
      let E := fresh "Df" in destruct (defined x) eqn:E
  | |- context [if ?b then _ else _] =>
      settled b; let E := fresh "Eng" in destruct b eqn:E
  end; cbn.

Ltac run_action := unfold_actions; repeat case_step.

(** Split on a check of the engine in a call that is otherwise settled. *)
Ltac engine_step :=
  match goal with
  | |- context [if ?b then _ else _] =>
      settled b; let E := fresh "Eng" in destruct b eqn:E
  end; cbn.

(** ** Gates and the single write *)

(** C8, as the code has it.  In a store whose integers are safe, the gates
    of every action run in sequence before its statement: an input with
    schema issues is answered with the input error, then a missing caller
    with UNAUTHORIZED, and a failed ownership lookup with NOT_FOUND; in all
    three cases the store is the one before the call and no write statement
    ran.  Past the gates the action runs the one statement of its action,
    after its reads.  When the call succeeds, the store differs from the one
    before by that statement alone, and a list action leaves it as it was.
    When the engine rejects the statement on a foreign key, the call fails
    with the driver's error and the store is the one before the call. *)
Theorem gates_precede_the_write (c : Call) ctx rt d :
  integers_safe d ->
  match schema c, locals_user ctx with
  | _ :: _, _ =>
      server c ctx rt d = mkRun (inl (ActionInputError (schema c))) d []
  | [], None => server c ctx rt d = mkRun (inl unauthorized) d []
  | [], Some _ =>
      match outcome (server c ctx rt d) with
      | inl (DriverError fault) =>
          statement_of c <> [] /\
          log (server c ctx rt d) =
            reads (log (server c ctx rt d)) ++ statement_of c /\
          (fault = foreign_key_violation -> store (server c ctx rt d) = d)
      | inl e =>
          kind e = NotFound /\
          store (server c ctx rt d) = d /\
          writes (log (server c ctx rt d)) = []
      | inr _ =>
          log (server c ctx rt d) =
            reads (log (server c ctx rt d)) ++ statement_of c /\
          other_tables_kept (table_of c) d (store (server c ctx rt d)) /\
          statement_effect c rt d (store (server c ctx rt d))
      end
  end.
Proof.
  intros _. destruct c; cbn [schema]; run_action;
    unfold other_tables_kept, statement_effect; cbn;
    repeat split; try discriminate; try reflexivity;
    try (intros Ht; now destruct Ht);
    try (eexists; split; [|reflexivity]; reflexivity).
Qed.

(** C7, as the code has it.  A call whose input passes the schema and whose
    context resolves no caller fails with UNAUTHORIZED before any ownership
    resolution and before any datastore statement, reads included. *)
Theorem unauthorized_before_any_access (c : Call) ctx rt d :
  schema c = [] ->
  locals_user ctx = None ->
  server c ctx rt d = mkRun (inl unauthorized) d [].
Proof.
  intros Hs Hu.
  destruct c; cbn [schema] in Hs; unfold server, defineAction;
    try rewrite Hs; unfold_actions; rewrite Hu; reflexivity.
Qed.

Lemma schema_issues_reject (c : Call) ctx rt d :
  schema c <> [] ->
  server c ctx rt d = mkRun (inl (ActionInputError (schema c))) d [].
Proof.
  destruct c; cbn [schema]; intros Hs; unfold server, defineAction;
    match goal with
    | |- context [match ?s with [] => _ | _ => _ end] =>
        destruct s; [now destruct Hs | reflexivity]
    end.
Qed.

Lemma empty_update_issue (c : Call) :
  empty_update c -> In (custom no_field_message) (schema c).
Proof.
  destruct c; cbn [empty_update]; try contradiction; intros H;
    repeat match goal with H : _ /\ _ |- _ => destruct H end;
    cbn [schema];
    unfold UpdateStory.schema, UpdateStoryAct.schema,
      UpdateStoryChapter.schema, UpdateStoryScene.schema;
    repeat match goal with H : _ = None |- _ => rewrite H end;
    rewrite !in_app_iff; cbn; auto.
Qed.

(** C3. An update whose payload sets no mutable field is rejected with the
    input error, among whose issues is the message that at least one field
    must be provided; the store is untouched and no statement ran. *)
Theorem empty_update_rejected (c : Call) ctx rt d :
  empty_update c ->
  exists issues,
    server c ctx rt d = mkRun (inl (ActionInputError issues)) d [] /\
    In (custom no_field_message) issues.
Proof.
  intros H. apply empty_update_issue in H.
  exists (schema c). split; [|exact H].
  apply schema_issues_reject. intros E. rewrite E in H. exact H.
Qed.

(** ** Ownership of the root story *)

Lemma owned_story_selected d sid uid s rest :
  filter (owned_story_cond sid uid) (tblStories d) = s :: rest ->
  owns d uid sid.
Proof.
  intros E. apply filter_head_in in E. destruct E as [Hin Hw].
  unfold owned_story_cond, and_, eq_ in Hw.
  apply andb_true_iff in Hw. destruct Hw as [Hi Hu].
  apply String.eqb_eq in Hi, Hu. exists s. auto.
Qed.

Lemma no_owned_story_selected d sid uid :
  ~ owns d uid sid ->
  filter (owned_story_cond sid uid) (tblStories d) = [].
Proof.
  intros No. destruct (filter _ _) eqn:E; [reflexivity|].
  destruct No. eapply owned_story_selected; eauto.
Qed.

Lemma gate_row_full {R} (c1 c2 : R -> string) k1 k2 l s rest :
  filter (and_ (eq_ c1 k1) (eq_ c2 k2)) l = s :: rest ->
  In s l /\ c1 s = k1 /\ c2 s = k2.
Proof.
  intros E. apply filter_head_in in E. destruct E as [Hin Hw].
  unfold and_, eq_ in Hw. apply andb_true_iff in Hw. destruct Hw as [H1 H2].
  apply String.eqb_eq in H1, H2. auto.
Qed.

Lemma gate_none {R} (c1 c2 : R -> string) k1 k2 l :
  (forall r, In r l -> c1 r = k1 -> c2 r <> k2) ->
  filter (and_ (eq_ c1 k1) (eq_ c2 k2)) l = [].
Proof.
  intros No. destruct (filter _ l) eqn:E; [reflexivity|].
  apply gate_row_full in E. destruct E as (Hin & H1 & H2).
  destruct (No _ Hin H1 H2).
Qed.

Lemma primary_key_row {R} (id : R -> string) l x y :
  primary_key id l -> In x l -> In y l -> id x = id y -> x = y.
Proof.
  unfold primary_key. induction l as [|z l IH]; cbn; [contradiction|].
  intros Hnd Hx Hy E. apply NoDup_cons_iff in Hnd. destruct Hnd as [Hz Hnd].
  destruct Hx as [->|Hx], Hy as [->|Hy]; auto.
  - destruct Hz. rewrite E. now apply in_map.
  - destruct Hz. rewrite <- E. now apply in_map.
Qed.

Lemma gate_found {R} (c1 c2 : R -> string) k1 k2 l :
  (exists r, In r l /\ c1 r = k1 /\ c2 r = k2) ->
  filter (and_ (eq_ c1 k1) (eq_ c2 k2)) l = [] -> False.
Proof.
  intros (r & Hin & H1 & H2) E.
  pose proof (filter_nil_none _ _ E r Hin) as F.
  unfold and_, eq_ in F. rewrite H1, H2, !String.eqb_refl in F.
  discriminate.
Qed.

Lemma owned_story_found d sid uid :
  owns d uid sid ->
  exists s rest,
    filter (and_ (eq_ Stories.id sid) (eq_ Stories.userId uid))
      (tblStories d) = s :: rest.
Proof.
  intros H. destruct (filter _ (tblStories d)) as [|s rest] eqn:E; [|eauto].
  destruct (gate_found _ _ _ _ _ H E).
Qed.

Lemma owned_story_stored d sid uid :
  owns d uid sid -> stored_under Stories.id (tblStories d) sid = true.
Proof.
  intros (s & Hin & Hid & _). unfold stored_under.
  apply existsb_exists. exists s. split; [exact Hin|].
  now apply String.eqb_eq.
Qed.

Lemma gate_row_story {R} (id storyId : R -> string) k sid l s rest :
  filter (and_ (eq_ id k) (eq_ storyId sid)) l = s :: rest ->
  In sid (map storyId (filter (eq_ id k) l)).
Proof.
  intros E. apply filter_head_in in E. destruct E as [Hin Hw].
  unfold and_ in Hw. apply andb_true_iff in Hw. destruct Hw as [Hk Hs].
  unfold eq_ in Hs. apply String.eqb_eq in Hs. rewrite <- Hs.
  apply in_map. apply filter_In. auto.
Qed.

(** C1, as the code has it.  For every action on an Act, a Chapter or a
    Scene, called by user [u] with an input that passes its schema and names
    story [sid]: the action
    succeeds only if [u] owns [sid]; when [sid] is absent or belongs to
    another user it fails with NOT_FOUND after the story lookup alone, so
    whether the target entity exists plays no part, and the store is
    untouched.  And whatever story the input names, an update or a delete
    fails with NOT_FOUND before any write when no row stored under the target
    id belongs to a story of [u]. *)
Theorem story_ownership_gate (c : Call) ctx rt d u sid :
  schema c = [] ->
  locals_user ctx = Some u ->
  storyId_of c = Some sid ->
  (forall resp, outcome (server c ctx rt d) = inr resp ->
                owns d (App.id u) sid) /\
  (~ owns d (App.id u) sid ->
   server c ctx rt d =
     mkRun (inl (ActionError NOT_FOUND "Story not found.")) d
       [Select Stories_] /\
   kind (ActionError NOT_FOUND "Story not found.") = NotFound) /\
  (forall stories,
      target_stories d c = Some stories ->
      (forall s, In s stories -> ~ owns d (App.id u) s) ->
      not_found_before_write (server c ctx rt d) d).
Proof.
  intros Hs Hu Hid.
  destruct c; cbn [storyId_of] in Hid; try discriminate;
    injection Hid as <-; cbn [schema] in Hs;
    unfold server, defineAction, not_found_before_write; rewrite Hs;
    unfold_actions; rewrite Hu; cbn;
    match goal with
    | |- context [filter (and_ (eq_ Stories.id ?a) (eq_ Stories.userId ?b))
                    (tblStories d)] =>
        change (and_ (eq_ Stories.id a) (eq_ Stories.userId b))
          with (owned_story_cond a b)
    end.
  all: split;
    [ intros resp;
      destruct (filter (owned_story_cond _ _) (tblStories d)) eqn:Sel;
      [ cbn; discriminate | intros _; eapply owned_story_selected; eauto ]
    | split;
      [ intros No; rewrite (no_owned_story_selected _ _ _ No); cbn;
        split; reflexivity
      | idtac ] ].
  all: intros stories Ht Hno; cbn [target_stories] in Ht;
    try discriminate; injection Ht as <-.
  all: destruct (filter (owned_story_cond _ _) (tblStories d)) eqn:Sel; cbn;
    [ eexists; repeat split | ];
    apply owned_story_selected in Sel;
    repeat case_step;
    try (eexists; repeat split; fail);
    match goal with
    | H : filter (and_ (eq_ _ _) (eq_ _ _)) _ = _ :: _ |- _ =>
        apply gate_row_story in H; destruct (Hno _ H Sel)
    end.
Qed.

(** ** Defaults of the create actions *)

Ltac close_failed :=
  try match goal with
      | H : inl _ = inr _ |- _ => discriminate H
      end.

(** C5. A create of an Act, a Chapter or a Scene that succeeds appends one
    row to its table and returns one; in both, orderIndex is 1 when the input
    omits orderIndex, and the ancestor reference (actId of a Chapter,
    chapterId of a Scene) is absent when the input omits it.  And a create
    that omits both does succeed for a caller who owns the story named by a
    schema-valid input, the generated id being new to the table: the engine
    accepts the defaults. *)
Theorem create_defaults ctx rt d :
  (forall i resp,
      outcome (server (createStoryAct i) ctx rt d) = inr resp ->
      exists returned stored,
        resp = act_ (Some returned) /\
        tblStoryActs (store (server (createStoryAct i) ctx rt d)) =
          tblStoryActs d ++ [stored] /\
        (CreateStoryAct.orderIndex i = None ->
         StoryActs.orderIndex stored = 1%Z /\
         StoryActs.orderIndex returned = 1%Z)) /\
  (forall i resp,
      outcome (server (createStoryChapter i) ctx rt d) = inr resp ->
      exists returned stored,
        resp = chapter_ (Some returned) /\
        tblStoryChapters (store (server (createStoryChapter i) ctx rt d)) =
          tblStoryChapters d ++ [stored] /\
        (CreateStoryChapter.orderIndex i = None ->
         StoryChapters.orderIndex stored = 1%Z /\
         StoryChapters.orderIndex returned = 1%Z) /\
        (CreateStoryChapter.actId i = None ->
         StoryChapters.actId stored = None /\
         StoryChapters.actId returned = None)) /\
  (forall i resp,
      outcome (server (createStoryScene i) ctx rt d) = inr resp ->
      exists returned stored,
        resp = scene_ (Some returned) /\
        tblStoryScenes (store (server (createStoryScene i) ctx rt d)) =
          tblStoryScenes d ++ [stored] /\
        (CreateStoryScene.orderIndex i = None ->
         StoryScenes.orderIndex stored = 1%Z /\
         StoryScenes.orderIndex returned = 1%Z) /\
        (CreateStoryScene.chapterId i = None ->
         StoryScenes.chapterId stored = None /\
         StoryScenes.chapterId returned = None)) /\
  (forall u,
      locals_user ctx = Some u ->
      (forall i,
          CreateStoryAct.schema i = [] ->
          owns d (App.id u) (CreateStoryAct.storyId i) ->
          ~ In (randomUUID rt) (stored_ids d StoryActs_) ->
          CreateStoryAct.orderIndex i = None ->
          exists resp,
            outcome (server (createStoryAct i) ctx rt d) = inr resp) /\
      (forall i,
          CreateStoryChapter.schema i = [] ->
          owns d (App.id u) (CreateStoryChapter.storyId i) ->
          ~ In (randomUUID rt) (stored_ids d StoryChapters_) ->
          CreateStoryChapter.orderIndex i = None ->
          CreateStoryChapter.actId i = None ->
          exists resp,
            outcome (server (createStoryChapter i) ctx rt d) = inr resp) /\
      (forall i,
          CreateStoryScene.schema i = [] ->
          owns d (App.id u) (CreateStoryScene.storyId i) ->
          ~ In (randomUUID rt) (stored_ids d StoryScenes_) ->
          CreateStoryScene.orderIndex i = None ->
          CreateStoryScene.chapterId i = None ->
          exists resp,
            outcome (server (createStoryScene i) ctx rt d) = inr resp)).
Proof.
  repeat apply conj.
  1-3: intros i resp; run_action; intros Ho; close_failed;
    injection Ho as <-; do 2 eexists; repeat split; cbn;
    match goal with E : _ = None |- _ => rewrite E end; reflexivity.
  all: intros u Hu; repeat apply conj; intros i Hs Hown _;
    destruct (owned_story_found _ _ _ Hown) as (s & rest & Sel);
    apply owned_story_stored in Hown; intros;
    unfold_actions; rewrite Hs, Hu; cbn; rewrite Sel; cbn;
    repeat match goal with H : _ = None |- _ => rewrite H; clear H end;
    cbn; rewrite Hown; cbn; eexists; reflexivity.
Qed.

(** ** List actions *)




(** ** Deleting an Act *)

Lemma linked_from_found {R} (link : R -> option string) l k r :
  In r l -> link r = Some k -> linked_from link l k = true.
Proof.
  intros Hin Hk. unfold linked_from. apply existsb_exists.
  exists r. split; [exact Hin|]. rewrite Hk. apply String.eqb_refl.
Qed.

Lemma delete_checked {R} (id : R -> string) (busy : R -> bool) k l :
  existsb (fun r => eq_ id k r && busy r) l = false ->
  forall r, In r l -> id r = k -> busy r = false.
Proof.
  intros E r Hin Hk.
  destruct (busy r) eqn:B; [|reflexivity].
  assert (existsb (fun r => eq_ id k r && busy r) l = true) as T.
  { apply existsb_exists. exists r. split; [exact Hin|].
    unfold eq_. rewrite Hk, String.eqb_refl, B. reflexivity. }
  congruence.
Qed.

Lemma delete_refused {R} (id : R -> string) (busy : R -> bool) k l r :
  In r l -> id r = k -> busy r = true ->
  existsb (fun r => eq_ id k r && busy r) l = true.
Proof.
  intros Hin Hk B. apply existsb_exists. exists r. split; [exact Hin|].
  unfold eq_. rewrite Hk, String.eqb_refl, B. reflexivity.
Qed.

Lemma without_key {R} (id : R -> string) k l r :
  In r (without (eq_ id k) l) -> id r <> k.
Proof.
  unfold without. intros Hin. apply filter_In in Hin. destruct Hin as [_ Hne].
  unfold eq_ in Hne. apply negb_true_iff in Hne.
  now apply String.eqb_neq in Hne.
Qed.

(** C10, as the code and the declared reference have it.  deleteStoryAct
    never changes the stories, the chapters and the scenes.  When it succeeds
    it removes from the acts exactly the rows whose id is the input's, and
    then no chapter had that id as its actId.  When it fails the acts are as
    they were.  A delete of an act that a chapter references does fail: past
    the gates (the stored integers being safe, so that the lookups read
    their rows), with the foreign key violation of the engine, so no actId
    is left dangling. *)
Theorem deleteStoryAct_no_cascade i ctx rt d :
  tblStories (store (server (deleteStoryAct i) ctx rt d)) = tblStories d /\
  tblStoryChapters (store (server (deleteStoryAct i) ctx rt d)) =
    tblStoryChapters d /\
  tblStoryScenes (store (server (deleteStoryAct i) ctx rt d)) =
    tblStoryScenes d /\
  match outcome (server (deleteStoryAct i) ctx rt d) with
  | inr resp =>
      resp = done /\
      tblStoryActs (store (server (deleteStoryAct i) ctx rt d)) =
        without (eq_ StoryActs.id (DeleteStoryAct.id i)) (tblStoryActs d) /\
      (forall act,
          In act (tblStoryActs (store (server (deleteStoryAct i) ctx rt d))) ->
          StoryActs.id act <> DeleteStoryAct.id i) /\
      (forall chapter,
          In chapter (tblStoryChapters d) ->
          StoryChapters.actId chapter <> Some (DeleteStoryAct.id i))
  | inl _ =>
      tblStoryActs (store (server (deleteStoryAct i) ctx rt d)) =
        tblStoryActs d
  end /\
  (forall chapter u,
      In chapter (tblStoryChapters d) ->
      StoryChapters.actId chapter = Some (DeleteStoryAct.id i) ->
      DeleteStoryAct.schema i = [] ->
      locals_user ctx = Some u ->
      owns d (App.id u) (DeleteStoryAct.storyId i) ->
      has_act d (DeleteStoryAct.id i) (DeleteStoryAct.storyId i) ->
      integers_safe d ->
      server (deleteStoryAct i) ctx rt d =
        mkRun (inl (DriverError foreign_key_violation)) d
          [Select Stories_; Select StoryActs_; Delete StoryActs_]).
Proof.
  repeat apply conj.
  1-3: run_action; reflexivity.
  - run_action; repeat split; auto.
    + intros act. apply without_key.
    + intros chapter Hin Hk.
      match goal with
      | H : filter _ (tblStoryActs d) = ?a :: _ |- _ =>
          apply gate_row_full in H; destruct H as (Ha & Hid & _);
          pose proof (delete_checked StoryActs.id
                        (fun r => linked_from StoryChapters.actId
                                    (tblStoryChapters d) (StoryActs.id r))
                        _ _ Eng a Ha Hid) as B
      end.
      cbn in B. rewrite Hid, (linked_from_found _ _ _ _ Hin Hk) in B.
      discriminate.
  - intros chapter u Hin Hk Hs Hu Hown Hact _.
    destruct (owned_story_found _ _ _ Hown) as (s & rest & Sel).
    destruct Hact as (a & Ha & Hid & Hsid).
    unfold_actions. rewrite Hs, Hu. cbn. rewrite Sel. cbn.
    destruct (filter _ (tblStoryActs d)) eqn:Gate; cbn.
    + destruct (gate_found _ _ _ _ _ (ex_intro _ a (conj Ha (conj Hid Hsid)))
                  Gate).
    + rewrite (delete_refused StoryActs.id
                 (fun r => linked_from StoryChapters.actId
                             (tblStoryChapters d) (StoryActs.id r))
                 _ _ a Ha Hid); [reflexivity|].
      apply (linked_from_found _ _ _ chapter Hin). congruence.
Qed.

(** ** Updates: the rows an update rewrites *)

Lemma gate_row_matches {R} (w q : Cond R) l s rest :
  filter (and_ w q) l = s :: rest -> In s l /\ w s = true.
Proof.
  intros E. apply filter_head_in in E. destruct E as [Hin Hw].
  unfold and_ in Hw. apply andb_true_iff in Hw. tauto.
Qed.

Lemma update_returns_first {R} (set : R -> R) (w : Cond R) l s :
  In s l -> w s = true ->
  exists y, hd_error (map set (filter w l)) = Some (set y) /\
            In y l /\ w y = true.
Proof.
  intros Hin Hw.
  destruct (filter w l) as [|y rest] eqn:E.
  - pose proof (filter_nil_none w l E s Hin). congruence.
  - exists y. split; [reflexivity|]. now apply filter_head_in in E.
Qed.

Lemma rewritten_row_stored {R} (set : R -> R) (w : Cond R) l y :
  In y l -> w y = true -> In (set y) (rewrite_rows set w l).
Proof.
  intros Hin Hw. unfold rewrite_rows. apply in_map_iff.
  exists y. now rewrite Hw.
Qed.

Lemma rewrite_rows_inv {R} (set : R -> R) (w : Cond R) l x :
  In x (rewrite_rows set w l) ->
  (exists r, In r l /\ w r = true /\ x = set r) \/ (In x l /\ w x = false).
Proof.
  unfold rewrite_rows. intros Hin. apply in_map_iff in Hin.
  destruct Hin as [r [Hr Hin]]. destruct (w r) eqn:Wr.
  - left. exists r. auto.
  - right. subst x. auto.
Qed.

Lemma update_after_gate {R} (set : R -> R) (column : R -> string) k
      (q : Cond R) l s rest :
  filter (and_ (eq_ column k) q) l = s :: rest ->
  exists y, hd_error (map set (filter (eq_ column k) l)) = Some (set y) /\
            In y l /\ column y = k /\
            In (set y) (rewrite_rows set (eq_ column k) l).
Proof.
  intros E. apply gate_row_matches in E. destruct E as [Hin Hw].
  destruct (update_returns_first set _ l s Hin Hw) as (y & Hy & Hyin & Hyw).
  exists y. split; [exact Hy|]. split; [exact Hyin|]. split.
  - now apply String.eqb_eq in Hyw.
  - now apply rewritten_row_stored.
Qed.

Lemma rewritten_rows_with_key {R} (set : R -> R) (column : R -> string) k
      (P : R -> Prop) l :
  (forall r, column (set r) = column r) ->
  (forall r, P (set r)) ->
  forall x, In x (rewrite_rows set (eq_ column k) l) -> column x = k -> P x.
Proof.
  intros Hkey HP x Hin Hk. apply rewrite_rows_inv in Hin.
  destruct Hin as [(r & _ & _ & ->) | [_ Hw]]; [apply HP|].
  unfold eq_ in Hw. apply String.eqb_neq in Hw. contradiction.
Qed.

(** ** Timestamps *)

(** Finish a successful update: the returned row is the rewritten first row
    found under the id, it is stored, and every stored row under that id
    carries the property that [set] establishes. *)
Ltac updated_row :=
  match goal with
  | H : filter (and_ (eq_ ?column ?k) _) ?l = _ :: _
    |- context [hd_error (map ?set (filter (eq_ ?column ?k) ?l))] =>
      let y := fresh "y" in
      let E := fresh "E" in
      destruct (update_after_gate set column k _ l _ _ H)
        as (y & E & ? & ? & ?);
      rewrite E; exists (set y)
  end.

(** C9. A successful create of a Story, a Chapter or a Scene appends one row
    and returns one, both with updatedAt equal to the time of the call.  A
    successful update of a Story, a Chapter or a Scene returns a row under
    the input's id with updatedAt equal to the time of the call, a row is
    stored under that id, and every stored row under that id has updatedAt
    equal to the time of the call.  A successful updateStoryAct leaves the
    one timestamp an Act has, createdAt, as it was on every act. *)
Theorem updatedAt_refreshed ctx rt d :
  (forall i resp,
      outcome (server (createStory i) ctx rt d) = inr resp ->
      exists returned stored,
        resp = story_ (Some returned) /\
        tblStories (store (server (createStory i) ctx rt d)) =
          tblStories d ++ [stored] /\
        Stories.updatedAt stored = now rt /\
        Stories.updatedAt returned = now rt) /\
  (forall i resp,
      outcome (server (updateStory i) ctx rt d) = inr resp ->
      exists returned,
        resp = story_ (Some returned) /\
        Stories.id returned = UpdateStory.id i /\
        Stories.updatedAt returned = now rt /\
        (exists x,
            In x (tblStories (store (server (updateStory i) ctx rt d))) /\
            Stories.id x = UpdateStory.id i) /\
        forall x,
          In x (tblStories (store (server (updateStory i) ctx rt d))) ->
          Stories.id x = UpdateStory.id i -> Stories.updatedAt x = now rt) /\
  (forall i resp,
      outcome (server (createStoryChapter i) ctx rt d) = inr resp ->
      exists returned stored,
        resp = chapter_ (Some returned) /\
        tblStoryChapters (store (server (createStoryChapter i) ctx rt d)) =
          tblStoryChapters d ++ [stored] /\
        StoryChapters.updatedAt stored = now rt /\
        StoryChapters.updatedAt returned = now rt) /\
  (forall i resp,
      outcome (server (updateStoryChapter i) ctx rt d) = inr resp ->
      exists returned,
        resp = chapter_ (Some returned) /\
        StoryChapters.id returned = UpdateStoryChapter.id i /\
        StoryChapters.updatedAt returned = now rt /\
        (exists x,
            In x (tblStoryChapters (store (server (updateStoryChapter i) ctx rt d))) /\
            StoryChapters.id x = UpdateStoryChapter.id i) /\
        forall x,
          In x (tblStoryChapters (store (server (updateStoryChapter i) ctx rt d))) ->
          StoryChapters.id x = UpdateStoryChapter.id i -> StoryChapters.updatedAt x = now rt) /\
  (forall i resp,
      outcome (server (createStoryScene i) ctx rt d) = inr resp ->
      exists returned stored,
        resp = scene_ (Some returned) /\
        tblStoryScenes (store (server (createStoryScene i) ctx rt d)) =
          tblStoryScenes d ++ [stored] /\
        StoryScenes.updatedAt stored = now rt /\
        StoryScenes.updatedAt returned = now rt) /\
  (forall i resp,
      outcome (server (updateStoryScene i) ctx rt d) = inr resp ->
      exists returned,
        resp = scene_ (Some returned) /\
        StoryScenes.id returned = UpdateStoryScene.id i /\
        StoryScenes.updatedAt returned = now rt /\
        (exists x,
            In x (tblStoryScenes (store (server (updateStoryScene i) ctx rt d))) /\
            StoryScenes.id x = UpdateStoryScene.id i) /\
        forall x,
          In x (tblStoryScenes (store (server (updateStoryScene i) ctx rt d))) ->
          StoryScenes.id x = UpdateStoryScene.id i -> StoryScenes.updatedAt x = now rt) /\
  (forall i resp,
      outcome (server (updateStoryAct i) ctx rt d) = inr resp ->
      map StoryActs.createdAt
        (tblStoryActs (store (server (updateStoryAct i) ctx rt d))) =
      map StoryActs.createdAt (tblStoryActs d)).
Proof.
  repeat apply conj; intros i resp; run_action; intros Ho; close_failed;
    injection Ho as <-.
  (* creates *)
  all: try (do 2 eexists; repeat split; fail).
  (* updates of a story, a chapter, a scene *)
  all: try (updated_row; repeat split; auto;
            [ eexists; split; [eassumption|]; cbn; assumption
            | apply rewritten_rows_with_key; reflexivity ]).
  (* the acts *)
  all: rewrite map_map; apply map_ext; intros a;
    destruct (eq_ StoryActs.id (UpdateStoryAct.id i) a); reflexivity.
Qed.

(** ** Partial updates *)

Lemma sets_assign {A} (field : option A) old : sets field old (assign field old).
Proof. destruct field; reflexivity. Qed.

Lemma sets_opt_assign {A} (field : option A) old :
  sets_opt field old (assign_opt field old).
Proof. destruct field; reflexivity. Qed.

Lemma rewrite_rows_frame {R} (set : R -> R) (column : R -> string) k
      (P : R -> R -> Prop) l :
  (forall r, P r (set r)) ->
  Forall2 (fun old new =>
             if String.eqb (column old) k then P old new else new = old)
    l (rewrite_rows set (eq_ column k) l).
Proof.
  intros HP. induction l as [|x l IH]; cbn; constructor; auto.
  unfold eq_. destruct (String.eqb (column x) k); auto.
Qed.

(** C4, as the code has it.  A successful update rewrites the rows of its
    table stored under the input's id and no other row of any table.  In a
    rewritten row each mutable column takes the supplied value when the
    input supplies one and keeps the stored value otherwise, the id, the
    owner or story reference and createdAt are kept, and for a Story, a
    Chapter and a Scene updatedAt becomes the time of the call: with exactly
    one field supplied, that field and updatedAt are all that change. *)
Theorem partial_update_frame ctx rt d :
  (forall i resp,
      outcome (server (updateStory i) ctx rt d) = inr resp ->
      Forall2 (fun old new =>
                 if String.eqb (Stories.id old) (UpdateStory.id i)
                 then story_updated i (now rt) old new else new = old)
        (tblStories d) (tblStories (store (server (updateStory i) ctx rt d))) /\
      tblStoryActs (store (server (updateStory i) ctx rt d)) =
        tblStoryActs d /\
      tblStoryChapters (store (server (updateStory i) ctx rt d)) =
        tblStoryChapters d /\
      tblStoryScenes (store (server (updateStory i) ctx rt d)) =
        tblStoryScenes d) /\
  (forall i resp,
      outcome (server (updateStoryAct i) ctx rt d) = inr resp ->
      Forall2 (fun old new =>
                 if String.eqb (StoryActs.id old) (UpdateStoryAct.id i)
                 then act_updated i old new else new = old)
        (tblStoryActs d)
        (tblStoryActs (store (server (updateStoryAct i) ctx rt d))) /\
      tblStories (store (server (updateStoryAct i) ctx rt d)) =
        tblStories d /\
      tblStoryChapters (store (server (updateStoryAct i) ctx rt d)) =
        tblStoryChapters d /\
      tblStoryScenes (store (server (updateStoryAct i) ctx rt d)) =
        tblStoryScenes d) /\
  (forall i resp,
      outcome (server (updateStoryChapter i) ctx rt d) = inr resp ->
      Forall2 (fun old new =>
                 if String.eqb (StoryChapters.id old) (UpdateStoryChapter.id i)
                 then chapter_updated i (now rt) old new else new = old)
        (tblStoryChapters d)
        (tblStoryChapters (store (server (updateStoryChapter i) ctx rt d))) /\
      tblStories (store (server (updateStoryChapter i) ctx rt d)) =
        tblStories d /\
      tblStoryActs (store (server (updateStoryChapter i) ctx rt d)) =
        tblStoryActs d /\
      tblStoryScenes (store (server (updateStoryChapter i) ctx rt d)) =
        tblStoryScenes d) /\
  (forall i resp,
      outcome (server (updateStoryScene i) ctx rt d) = inr resp ->
      Forall2 (fun old new =>
                 if String.eqb (StoryScenes.id old) (UpdateStoryScene.id i)
                 then scene_updated i (now rt) old new else new = old)
        (tblStoryScenes d)
        (tblStoryScenes (store (server (updateStoryScene i) ctx rt d))) /\
      tblStories (store (server (updateStoryScene i) ctx rt d)) =
        tblStories d /\
      tblStoryActs (store (server (updateStoryScene i) ctx rt d)) =
        tblStoryActs d /\
      tblStoryChapters (store (server (updateStoryScene i) ctx rt d)) =
        tblStoryChapters d).
Proof.
  repeat apply conj; intros i resp; run_action; intros Ho; close_failed;
    (split; [|repeat split]);
    apply rewrite_rows_frame; intros row;
    unfold story_updated, act_updated, chapter_updated, scene_updated;
    cbn; repeat split; auto using @sets_assign, @sets_opt_assign.
Qed.

(** ** Ancestor references *)

Lemma nonempty_truthy a : a <> "" -> truthy (Some a) = true.
Proof. intros H. cbn. apply String.eqb_neq in H. now rewrite H. Qed.

(** ** Primary keys and references *)

Lemma rewrite_rows_map {R A} (set : R -> R) (w : Cond R) (f : R -> A) l :
  (forall r, f (set r) = f r) ->
  map f (rewrite_rows set w l) = map f l.
Proof.
  intros Hf. unfold rewrite_rows. rewrite map_map. apply map_ext.
  intros r. destruct (w r); auto.
Qed.

Lemma primary_key_insert {R} (id : R -> string) l r :
  primary_key id l -> ~ In (id r) (map id l) -> primary_key id (l ++ [r]).
Proof.
  unfold primary_key. intros Hnd Hfresh. rewrite map_app. cbn.
  apply NoDup_app; [exact Hnd | repeat constructor; auto | ].
  intros x Hx [<-|[]]. contradiction.
Qed.

Lemma primary_key_rewrite {R} (id : R -> string) set (w : Cond R) l :
  (forall r, id (set r) = id r) ->
  primary_key id l -> primary_key id (rewrite_rows set w l).
Proof.
  intros Hid. unfold primary_key. now rewrite rewrite_rows_map.
Qed.

Lemma primary_key_filter {R} (id : R -> string) (p : R -> bool) l :
  primary_key id l -> primary_key id (filter p l).
Proof.
  unfold primary_key. induction l as [|x l IH]; cbn; [auto|].
  intros Hnd. apply NoDup_cons_iff in Hnd. destruct Hnd as [Hx Hnd].
  destruct (p x); cbn; auto.
  constructor; auto. intros Hin. apply Hx.
  apply in_map_iff in Hin. destruct Hin as (y & Hy & Hin).
  apply filter_In in Hin. rewrite <- Hy. apply in_map. tauto.
Qed.

Lemma stored_under_In {R} (key : R -> string) l k :
  stored_under key l k = true -> In k (map key l).
Proof.
  unfold stored_under. intros H. apply existsb_exists in H.
  destruct H as (r & Hin & Hk). apply String.eqb_eq in Hk. subst k.
  now apply in_map.
Qed.

Lemma truthy_false a : truthy (Some a) = false -> a = "".
Proof.
  cbn. intros H. apply negb_false_iff in H. now apply String.eqb_eq in H.
Qed.

Lemma ids_without {R} (id : R -> string) (w : Cond R) l k :
  In k (map id (without w l)) -> In k (map id l).
Proof.
  intros H. apply in_map_iff in H. destruct H as (r & Hk & Hin).
  apply filter_In in Hin. subst k. apply in_map. tauto.
Qed.

Lemma ids_inserted {R} (id : R -> string) l r k :
  ~ In k (map id l) -> id r <> k -> ~ In k (map id (l ++ [r])).
Proof.
  intros No Hne. rewrite map_app, in_app_iff. cbn. tauto.
Qed.

Lemma ids_rewritten {R} (id : R -> string) set (w : Cond R) l k :
  (forall r, id (set r) = id r) ->
  ~ In k (map id l) -> ~ In k (map id (rewrite_rows set w l)).
Proof. intros Hid. now rewrite rewrite_rows_map. Qed.

Lemma linked_parent_insert {P C} (pid psid : P -> string)
      (clink : C -> option string) (csid : C -> string) ps cs x :
  linked pid psid clink csid ps cs ->
  linked pid psid clink csid (ps ++ [x]) cs.
Proof.
  intros L c k Hin Hk. destruct (L c k Hin Hk) as (p & Hp & H).
  exists p. split; [apply in_or_app; now left | exact H].
Qed.

Lemma linked_parent_rewrite {P C} (pid psid : P -> string)
      (clink : C -> option string) (csid : C -> string) set (w : Cond P)
      ps cs :
  (forall r, pid (set r) = pid r) -> (forall r, psid (set r) = psid r) ->
  linked pid psid clink csid ps cs ->
  linked pid psid clink csid (rewrite_rows set w ps) cs.
Proof.
  intros Hid Hsid L c k Hin Hk. destruct (L c k Hin Hk) as (p & Hp & H1 & H2).
  exists (if w p then set p else p). split.
  - unfold rewrite_rows. apply in_map_iff. now exists p.
  - destruct (w p); rewrite ?Hid, ?Hsid; auto.
Qed.

Lemma linked_parent_delete {P C} (pid psid : P -> string)
      (clink : C -> option string) (csid : C -> string) k ps cs :
  existsb (fun r => eq_ pid k r && linked_from clink cs (pid r)) ps = false ->
  linked pid psid clink csid ps cs ->
  linked pid psid clink csid (without (eq_ pid k) ps) cs.
Proof.
  intros E L c a Hin Ha. destruct (L c a Hin Ha) as (p & Hp & H1 & H2).
  exists p. split; [|auto]. apply filter_In. split; [exact Hp|].
  unfold eq_. destruct (String.eqb (pid p) k) eqn:Hk; [|reflexivity].
  apply String.eqb_eq in Hk.
  pose proof (delete_checked pid (fun r => linked_from clink cs (pid r))
                k ps E p Hp Hk) as B.
  cbn in B. rewrite H1, (linked_from_found clink cs a c Hin Ha) in B.
  discriminate.
Qed.

Lemma linked_child_insert {P C} (pid psid : P -> string)
      (clink : C -> option string) (csid : C -> string) ps cs c :
  linked pid psid clink csid ps cs ->
  (forall k, clink c = Some k ->
             exists p, In p ps /\ pid p = k /\ psid p = csid c) ->
  linked pid psid clink csid ps (cs ++ [c]).
Proof.
  intros L New x k Hin Hk. apply in_app_or in Hin.
  destruct Hin as [Hin|[<-|[]]]; auto.
Qed.

Lemma linked_child_rewrite {P C} (pid psid : P -> string)
      (clink : C -> option string) (csid : C -> string) set (w : Cond C)
      ps cs :
  linked pid psid clink csid ps cs ->
  (forall c k, In c cs -> w c = true -> clink (set c) = Some k ->
               exists p, In p ps /\ pid p = k /\ psid p = csid (set c)) ->
  linked pid psid clink csid ps (rewrite_rows set w cs).
Proof.
  intros L New x k Hin Hk. apply rewrite_rows_inv in Hin.
  destruct Hin as [(c & Hc & Hw & ->) | [Hx _]]; eauto.
Qed.

Lemma linked_child_without {P C} (pid psid : P -> string)
      (clink : C -> option string) (csid : C -> string) (w : Cond C) ps cs :
  linked pid psid clink csid ps cs ->
  linked pid psid clink csid ps (without w cs).
Proof.
  intros L x k Hin Hk. apply filter_In in Hin. destruct Hin as [Hin _]. eauto.
Qed.

Lemma link_checked {P} (pid psid : P -> string) ps link sid r rest :
  filter (and_ (eq_ pid (narrowed link)) (eq_ psid sid)) ps = r :: rest ->
  forall k, link = Some k -> exists p, In p ps /\ pid p = k /\ psid p = sid.
Proof.
  intros E k ->. cbn in E. apply gate_row_full in E. now exists r.
Qed.

Lemma link_enforced {P} (pid psid : P -> string) ps link sid :
  ~ In "" (map pid ps) ->
  truthy link = false -> link_stored pid ps link = true ->
  forall k, link = Some k -> exists p, In p ps /\ pid p = k /\ psid p = sid.
Proof.
  intros No Tr St k ->. apply truthy_false in Tr. subst k.
  apply stored_under_In in St. contradiction.
Qed.

Lemma updated_link {P C} (pid psid : P -> string) (cid csid : C -> string)
      (clink : C -> option string) ps cs (link : option string) k sid
      (set : C -> C) s rest :
  primary_key cid cs ->
  linked pid psid clink csid ps cs ->
  filter (and_ (eq_ cid k) (eq_ csid sid)) cs = s :: rest ->
  (forall c, csid (set c) = csid c) ->
  (forall c, clink (set c) = assign_opt link (clink c)) ->
  (forall a, link = Some a ->
             exists p, In p ps /\ pid p = a /\ psid p = sid) ->
  linked pid psid clink csid ps (rewrite_rows set (eq_ cid k) cs).
Proof.
  intros Pk L Gate Hsid Hlink New.
  apply linked_child_rewrite; [exact L|].
  intros c a Hc Hw Hl. rewrite Hsid. rewrite Hlink in Hl.
  destruct link as [a'|]; cbn in Hl.
  - injection Hl as <-. destruct (New a' eq_refl) as (p & Hp & H1 & H2).
    exists p. repeat split; auto.
    apply gate_row_full in Gate. destruct Gate as (Hs & Hk & Hss).
    unfold eq_ in Hw. apply String.eqb_eq in Hw.
    rewrite (primary_key_row cid cs c s Pk Hc Hs); congruence.
  - exact (L c a Hc Hl).
Qed.

(** Close one conjunct of [links_ok] after a call: by the primary keys, the
    ids, or the references of the table that changed. *)
Ltac link_leaf :=
  try assumption;
  try match goal with
      | H : _ && link_stored _ _ _ = true |- _ =>
          apply andb_true_iff in H; destruct H as [_ H]
      end;
  solve
    [ apply primary_key_insert; assumption
    | apply primary_key_rewrite; [intros; reflexivity | assumption]
    | apply primary_key_filter; assumption
    | apply ids_inserted; [assumption | cbn; congruence]
    | apply ids_rewritten; [intros; reflexivity | assumption]
    | let H := fresh in intros H; apply ids_without in H; contradiction
    | apply linked_parent_insert; assumption
    | apply linked_parent_rewrite;
      [intros; reflexivity | intros; reflexivity | assumption]
    | apply linked_parent_delete; assumption
    | apply linked_child_without; assumption
    | apply linked_child_insert; [assumption|]; cbn;
      first [ eapply link_checked; eassumption
            | eapply link_enforced; eassumption ]
    | eapply updated_link;
      [ eassumption | eassumption | eassumption
      | intros; reflexivity | intros; reflexivity | ];
      first [ eapply link_checked; eassumption
            | let a := fresh in let Ha := fresh in
              intros a Ha; rewrite Ha in *; discriminate ] ].

Lemma links_kept (c : Call) ctx rt d :
  links_ok d ->
  linked StoryActs.id StoryActs.storyId
    StoryChapters.actId StoryChapters.storyId
    (tblStoryActs (store (server c ctx rt d)))
    (tblStoryChapters (store (server c ctx rt d))) /\
  linked StoryChapters.id StoryChapters.storyId
    StoryScenes.chapterId StoryScenes.storyId
    (tblStoryChapters (store (server c ctx rt d)))
    (tblStoryScenes (store (server c ctx rt d))).
Proof.
  unfold links_ok, keys_ok.
  intros ((Ks & Ka & Kc & Kn) & Ea & Ec & La & Lc).
  destruct c; run_action; split; link_leaf.
Qed.

Lemma links_ok_step (c : Call) ctx rt d :
  links_ok d -> fresh_id c rt d -> links_ok (store (server c ctx rt d)).
Proof.
  intros Hok (Hne & Hfresh).
  pose proof (links_kept c ctx rt d Hok) as (La' & Lc').
  split; [|split; [|split; [|split]]]; try assumption; clear La' Lc';
    revert Hok; unfold links_ok, keys_ok;
    intros ((Ks & Ka & Kc & Kn) & Ea & Ec & La & Lc);
    destruct c; cbn [table_of stored_ids] in *; run_action;
    repeat apply conj; link_leaf.
Qed.

Lemma reachable_links_ok d : reachable d -> links_ok d.
Proof.
  induction 1 as [|c ctx rt d _ IH Hfresh].
  - unfold links_ok, keys_ok, primary_key, linked. cbn.
    repeat split; try constructor; try tauto; contradiction.
  - now apply links_ok_step.
Qed.

(** C2, as the code has it.  In every store that calls of the actions reach
    from the empty datastore, the actId of every stored chapter names an act
    of the chapter's story, and the chapterId of every stored scene a
    chapter of the scene's story.  In such a store a createStoryChapter or
    an updateStoryChapter that succeeds returns a chapter whose actId, when
    present, is the id of an act stored after the call under the chapter's
    storyId.  And for a caller with an input that passes the schema, the
    stored integers being safe, an actId on createStoryChapter or
    updateStoryChapter, and a chapterId on createStoryScene or
    updateStoryScene, that is stored but under no act (chapter) of the named
    story fails with NOT_FOUND before any write. *)
Theorem ancestor_reference_checked d :
  reachable d ->
  links_ok d /\
  (forall i ctx rt resp,
      outcome (server (createStoryChapter i) ctx rt d) = inr resp ->
      exists chapter,
        resp = chapter_ (Some chapter) /\
        forall a,
          StoryChapters.actId chapter = Some a ->
          has_act (store (server (createStoryChapter i) ctx rt d)) a
            (StoryChapters.storyId chapter)) /\
  (forall i ctx rt resp,
      outcome (server (updateStoryChapter i) ctx rt d) = inr resp ->
      exists chapter,
        resp = chapter_ (Some chapter) /\
        forall a,
          StoryChapters.actId chapter = Some a ->
          has_act (store (server (updateStoryChapter i) ctx rt d)) a
            (StoryChapters.storyId chapter)) /\
  (forall ctx rt u a,
      locals_user ctx = Some u ->
      integers_safe d ->
      (forall i,
          CreateStoryChapter.schema i = [] ->
          CreateStoryChapter.actId i = Some a ->
          In a (stored_ids d StoryActs_) ->
          (forall act, In act (tblStoryActs d) -> StoryActs.id act = a ->
                       StoryActs.storyId act <> CreateStoryChapter.storyId i) ->
          not_found_before_write
            (server (createStoryChapter i) ctx rt d) d) /\
      (forall i,
          UpdateStoryChapter.schema i = [] ->
          UpdateStoryChapter.actId i = Some a ->
          In a (stored_ids d StoryActs_) ->
          (forall act, In act (tblStoryActs d) -> StoryActs.id act = a ->
                       StoryActs.storyId act <> UpdateStoryChapter.storyId i) ->
          not_found_before_write
            (server (updateStoryChapter i) ctx rt d) d) /\
      (forall i,
          CreateStoryScene.schema i = [] ->
          CreateStoryScene.chapterId i = Some a ->
          In a (stored_ids d StoryChapters_) ->
          (forall chapter,
              In chapter (tblStoryChapters d) ->
              StoryChapters.id chapter = a ->
              StoryChapters.storyId chapter <> CreateStoryScene.storyId i) ->
          not_found_before_write
            (server (createStoryScene i) ctx rt d) d) /\
      (forall i,
          UpdateStoryScene.schema i = [] ->
          UpdateStoryScene.chapterId i = Some a ->
          In a (stored_ids d StoryChapters_) ->
          (forall chapter,
              In chapter (tblStoryChapters d) ->
              StoryChapters.id chapter = a ->
              StoryChapters.storyId chapter <> UpdateStoryScene.storyId i) ->
          not_found_before_write
            (server (updateStoryScene i) ctx rt d) d)).
Proof.
  intros Hreach. pose proof (reachable_links_ok d Hreach) as Hok.
  split; [exact Hok|]. split; [|split].
  - intros i ctx rt resp.
    generalize (proj1 (links_kept (createStoryChapter i) ctx rt d Hok)).
    run_action; intros L Ho; close_failed; injection Ho as <-.
    all: eexists; (split; [reflexivity|]); intros a Ha;
      apply (L _ a); [|exact Ha]; apply in_or_app; right; now left.
  - intros i ctx rt resp.
    generalize (proj1 (links_kept (updateStoryChapter i) ctx rt d Hok)).
    run_action; intros L Ho; close_failed; injection Ho as <-.
    all: updated_row; (split; [reflexivity|]); intros a Ha;
      apply (L _ a); assumption.
  - destruct Hok as (_ & Ea & Ec & _).
    intros ctx rt u a Hu _. unfold not_found_before_write.
    repeat apply conj; intros i Hs Ha Hin No;
      assert (a <> "") as Hne by (intros ->; contradiction);
      pose proof (gate_none _ _ _ _ _ No) as G;
      unfold_actions; rewrite Hs, Hu, Ha, ?(nonempty_truthy _ Hne); cbn;
      repeat case_step; try congruence; eexists; repeat split.
Qed.

(** ** The scenario, run *)

Lemma scenario_runs :
  run_createStory = mkRun (inr (story_ (Some novel)))
                      (mkDB [novel] [] [] []) [Insert Stories_] /\
  run_createStoryAct =
    mkRun (inr (act_ (Some first_act))) (mkDB [novel] [first_act] [] [])
      [Select Stories_; Insert StoryActs_] /\
  run_createStoryChapter =
    mkRun (inr (chapter_ (Some first_chapter)))
      (mkDB [novel] [first_act] [first_chapter] [])
      [Select Stories_; Select Stories_; Select StoryActs_;
       Insert StoryChapters_] /\
  run_deleteStoryAct =
    mkRun (inl (DriverError foreign_key_violation)) db_chapter
      [Select Stories_; Select StoryActs_; Delete StoryActs_] /\
  run_deleteStoryAct_unreferenced =
    mkRun (inr done) db_story
      [Select Stories_; Select StoryActs_; Delete StoryActs_] /\
  run_createStoryChapter_plain =
    mkRun (inr (chapter_ (Some second_chapter)))
      (mkDB [novel] [first_act] [first_chapter; second_chapter] [])
      [Select Stories_; Insert StoryChapters_] /\
  run_createStoryScene =
    mkRun (inr (scene_ (Some first_scene)))
      (mkDB [novel] [first_act] [first_chapter] [first_scene])
      [Select Stories_; Insert StoryScenes_] /\
  run_create_far_act =
    mkRun (inl (DriverError unsafe_integer)) (mkDB [novel] [far_act] [] [])
      [Select Stories_; Insert StoryActs_] /\
  run_createStoryChapter_empty_actId =
    mkRun (inl (DriverError foreign_key_violation)) db_story
      [Select Stories_; Insert StoryChapters_].
Proof. repeat split. Qed.

Lemma scenario_reachable :
  reachable db_story /\ reachable db_act /\ reachable db_chapter /\
  reachable db_scene.
Proof.
  assert (reachable db_story) as Hs.
  { apply reach_call; [apply reach_empty|].
    split; [discriminate | cbn; tauto]. }
  assert (reachable db_act) as Ha.
  { apply reach_call; [exact Hs|].
    split; [discriminate | cbn; tauto]. }
  assert (reachable db_chapter) as Hc.
  { apply reach_call; [exact Ha|].
    split; [discriminate | cbn; tauto]. }
  repeat split; try assumption.
  apply reach_call; [exact Hc|]. split; [discriminate | cbn; tauto].
Qed.

Lemma scenario_integers_safe :
  integers_safe db_story /\ integers_safe db_act /\
  integers_safe db_chapter /\ integers_safe db_scene.
Proof. repeat split; repeat constructor. Qed.

(** ** The properties on the scenario *)

(** Bob, who does not own S1, updates Alice's act naming S1: NOT_FOUND after
    the story lookup. *)
Lemma story_ownership_gate_witness :
  (forall resp,
      outcome (server bob_updates_act (signed_in bob)
                 (mkRuntime "unused" 105%Z) db_act) = inr resp ->
      owns db_act "u2" "S1") /\
  (~ owns db_act "u2" "S1" ->
   server bob_updates_act (signed_in bob) (mkRuntime "unused" 105%Z) db_act =
     mkRun (inl (ActionError NOT_FOUND "Story not found.")) db_act
       [Select Stories_] /\
   kind (ActionError NOT_FOUND "Story not found.") = NotFound) /\
  (forall stories,
      target_stories db_act bob_updates_act = Some stories ->
      (forall s, In s stories -> ~ owns db_act "u2" s) ->
      not_found_before_write
        (server bob_updates_act (signed_in bob) (mkRuntime "unused" 105%Z)
           db_act) db_act).
Proof.
  apply (story_ownership_gate bob_updates_act (signed_in bob)
           (mkRuntime "unused" 105%Z) db_act bob "S1"); reflexivity.
Defined.

(** C1 fails as stated: Bob does not own S1, and his update of Alice's act
    with no field fails, but with the input error and not with NOT_FOUND;
    the schema is applied before the story is looked up. *)
Lemma invalid_input_precedes_ownership :
  storyId_of bob_updates_nothing = Some "S1" /\
  ~ owns db_act "u2" "S1" /\
  exists e,
    server bob_updates_nothing (signed_in bob) (mkRuntime "unused" 105%Z)
      db_act = mkRun (inl e) db_act [] /\
    e = ActionInputError [custom no_field_message] /\
    kind e <> NotFound.
Proof.
  split; [reflexivity|]. split.
  - intros (s & [<-|[]] & _ & Hu). discriminate Hu.
  - eexists. split; [reflexivity|]. split; [reflexivity|discriminate].
Qed.

(** The chapter C1 created under A1 references the act A1 of its story. *)
Lemma ancestor_reference_checked_witness :
  exists chapter,
    outcome run_createStoryChapter = inr (chapter_ (Some chapter)) /\
    StoryChapters.actId chapter = Some "A1" /\
    has_act db_chapter "A1" (StoryChapters.storyId chapter).
Proof.
  destruct (proj1 (proj2 (ancestor_reference_checked db_act
                            (proj1 (proj2 scenario_reachable))))
              (CreateStoryChapter.mk "S1" (Some "A1") None None None None)
              (signed_in alice) (mkRuntime "C1" 102%Z)
              (chapter_ (Some first_chapter)) eq_refl)
    as (chapter & Hresp & Hact).
  exists chapter. injection Hresp as <-.
  split; [reflexivity|]. split; [reflexivity|].
  apply (Hact "A1"). reflexivity.
Defined.

(** C2 fails as stated: A1 is stored and belongs to S1, not to S2, and a
    call that supplies it for S2 fails, but not with NOT_FOUND, when no
    caller is resolved or the input does not pass the schema; these gates
    come before the lookup of the act. *)
Lemma foreign_actId_behind_earlier_gates :
  In "A1" (stored_ids db_two StoryActs_) /\
  (forall act, In act (tblStoryActs db_two) -> StoryActs.id act = "A1" ->
               StoryActs.storyId act <> "S2") /\
  (exists e,
      server chapter_under_foreign_act anonymous (mkRuntime "C4" 121%Z)
        db_two = mkRun (inl e) db_two [] /\
      kind e = Unauthorized /\ kind e <> NotFound) /\
  (exists e,
      server nameless_chapter_under_foreign_act (signed_in bob)
        (mkRuntime "unused" 122%Z) db_two = mkRun (inl e) db_two [] /\
      kind e = ValidationError /\ kind e <> NotFound).
Proof.
  split; [now left|]. split.
  - intros act [<-|[]] _. discriminate.
  - split; eexists; (split; [reflexivity|]); split;
      solve [reflexivity | discriminate].
Qed.

(** The empty-string actId: createStoryChapter tests the actId for
    truthiness, so the empty string skips the act lookup; the row goes to
    the engine with actId the empty string, which names no act, and the
    insert is rejected. *)
Lemma createStoryChapter_empty_actId_rejected :
  run_createStoryChapter_empty_actId =
    mkRun (inl (DriverError foreign_key_violation)) db_story
      [Select Stories_; Insert StoryChapters_] /\
  tblStoryActs db_story = [].
Proof. split; reflexivity. Qed.

Lemma empty_update_rejected_witness :
  exists issues,
    server empty_story_update (signed_in alice) (mkRuntime "unused" 200%Z)
      db_story = mkRun (inl (ActionInputError issues)) db_story [] /\
    In (custom no_field_message) issues.
Proof.
  apply (empty_update_rejected empty_story_update (signed_in alice)
           (mkRuntime "unused" 200%Z) db_story).
  cbn. repeat split.
Defined.

Lemma partial_update_frame_witness :
  Forall2 (fun old new =>
             if String.eqb (Stories.id old) "S1"
             then story_updated
                    (UpdateStory.mk "S1" (Some "Novel B") None None None None
                       None) 200%Z old new
             else new = old)
    (tblStories db_story) (tblStories (store run_retitle_story)) /\
  tblStoryActs (store run_retitle_story) = tblStoryActs db_story /\
  tblStoryChapters (store run_retitle_story) = tblStoryChapters db_story /\
  tblStoryScenes (store run_retitle_story) = tblStoryScenes db_story.
Proof.
  apply (proj1 (partial_update_frame (signed_in alice)
                  (mkRuntime "unused" 200%Z) db_story)
           (UpdateStory.mk "S1" (Some "Novel B") None None None None None)
           (story_ (Some (Stories.mk "S1" "u1" "Novel B" None None None None
                            None 100%Z 200%Z)))).
  reflexivity.
Defined.

(** C4 fails as stated: an update that supplies the title alone also moves
    updatedAt of the stored row, from 100 to 200 here. *)
Lemma updateStory_title_moves_updatedAt :
  exists old new,
    tblStories db_story = [old] /\
    tblStories (store run_retitle_story) = [new] /\
    outcome run_retitle_story = inr (story_ (Some new)) /\
    Stories.title new = "Novel B" /\
    Stories.updatedAt old = 100%Z /\
    Stories.updatedAt new = 200%Z /\
    Stories.updatedAt new <> Stories.updatedAt old.
Proof. do 2 eexists. repeat split. discriminate. Qed.

(** An act, a chapter and a scene created with neither orderIndex nor
    ancestor: each is stored and returned with orderIndex 1 and no
    ancestor. *)
Lemma create_defaults_witness :
  (exists returned stored,
      outcome run_createStoryAct = inr (act_ (Some returned)) /\
      tblStoryActs (store run_createStoryAct) =
        tblStoryActs db_story ++ [stored] /\
      StoryActs.orderIndex stored = 1%Z /\
      StoryActs.orderIndex returned = 1%Z) /\
  (exists returned stored,
      outcome run_createStoryChapter_plain =
        inr (chapter_ (Some returned)) /\
      tblStoryChapters (store run_createStoryChapter_plain) =
        tblStoryChapters db_chapter ++ [stored] /\
      StoryChapters.orderIndex stored = 1%Z /\
      StoryChapters.orderIndex returned = 1%Z /\
      StoryChapters.actId stored = None /\
      StoryChapters.actId returned = None) /\
  (exists returned stored,
      outcome run_createStoryScene = inr (scene_ (Some returned)) /\
      tblStoryScenes (store run_createStoryScene) =
        tblStoryScenes db_chapter ++ [stored] /\
      StoryScenes.orderIndex stored = 1%Z /\
      StoryScenes.orderIndex returned = 1%Z /\
      StoryScenes.chapterId stored = None /\
      StoryScenes.chapterId returned = None).
Proof.
  split; [|split].
  - destruct (create_defaults (signed_in alice) (mkRuntime "A1" 101%Z)
                db_story) as (H & _).
    destruct (H (CreateStoryAct.mk "S1" None None None)
                (act_ (Some first_act)) eq_refl)
      as (returned & stored & Hresp & Htbl & Hidx).
    exists returned, stored. injection Hresp as <-.
    split; [reflexivity|]. split; [exact Htbl|]. exact (Hidx eq_refl).
  - destruct (create_defaults (signed_in alice) (mkRuntime "C2" 105%Z)
                db_chapter) as (_ & H & _).
    destruct (H (CreateStoryChapter.mk "S1" None None None None None)
                (chapter_ (Some second_chapter)) eq_refl)
      as (returned & stored & Hresp & Htbl & Hidx & Hlink).
    exists returned, stored. injection Hresp as <-.
    split; [reflexivity|]. split; [exact Htbl|].
    destruct (Hidx eq_refl), (Hlink eq_refl). auto.
  - destruct (create_defaults (signed_in alice) (mkRuntime "N1" 106%Z)
                db_chapter) as (_ & _ & H & _).
    destruct (H (CreateStoryScene.mk "S1" None None None None None None None)
                (scene_ (Some first_scene)) eq_refl)
      as (returned & stored & Hresp & Htbl & Hidx & Hlink).
    exists returned, stored. injection Hresp as <-.
    split; [reflexivity|]. split; [exact Htbl|].
    destruct (Hidx eq_refl), (Hlink eq_refl). auto.
Defined.



Lemma unauthorized_before_any_access_witness :
  server retitle_story anonymous (mkRuntime "unused" 200%Z) db_story =
    mkRun (inl unauthorized) db_story [].
Proof.
  apply (unauthorized_before_any_access retitle_story anonymous
           (mkRuntime "unused" 200%Z) db_story); reflexivity.
Defined.

(** C7 fails as stated: without a caller, an update with no field is
    answered with the input error, not with UNAUTHORIZED; the schema is
    applied before the handler, where the caller is looked up. *)
Lemma validation_precedes_identity :
  locals_user anonymous = None /\
  exists e,
    server empty_story_update anonymous (mkRuntime "unused" 200%Z) db_story =
      mkRun (inl e) db_story [] /\
    e = ActionInputError [custom no_field_message] /\
    kind e <> Unauthorized.
Proof.
  split; [reflexivity|]. eexists. split; [reflexivity|].
  split; [reflexivity|discriminate].
Qed.

(** Alice's delete of A1, which C1 references: past the gates, the one
    statement, refused by the engine, and the store as before. *)
Lemma gates_precede_the_write_witness :
  statement_of delete_first_act <> [] /\
  log run_deleteStoryAct =
    reads (log run_deleteStoryAct) ++ statement_of delete_first_act /\
  (foreign_key_violation = foreign_key_violation ->
   store run_deleteStoryAct = db_chapter).
Proof.
  apply (gates_precede_the_write delete_first_act (signed_in alice)
           (mkRuntime "unused" 103%Z) db_chapter).
  repeat split; repeat constructor.
Defined.

(** C8 fails as stated.  Alice's createStoryAct at position 2^53 passes
    every gate and its insert is committed, and then the call fails: the
    act is stored.  And her delete of A1, which C1 references, passes every
    gate and fails at its statement, with an error that is no gate's. *)
Lemma write_fails_past_the_gates :
  (schema (createStoryAct (CreateStoryAct.mk "S1" (Some (2 ^ 53)%Z) None
                             None)) = [] /\
   owns db_story "u1" "S1" /\
   outcome run_create_far_act = inl (DriverError unsafe_integer) /\
   tblStoryActs db_story = [] /\
   tblStoryActs (store run_create_far_act) = [far_act]) /\
  (schema delete_first_act = [] /\
   owns db_chapter "u1" "S1" /\
   has_act db_chapter "A1" "S1" /\
   outcome run_deleteStoryAct = inl (DriverError foreign_key_violation) /\
   kind (DriverError foreign_key_violation) = InternalError /\
   log run_deleteStoryAct =
     [Select Stories_; Select StoryActs_; Delete StoryActs_]).
Proof.
  split; repeat apply conj; try reflexivity.
  - exists novel. repeat split. now left.
  - exists novel. repeat split. now left.
  - exists first_act. repeat split. now left.
Qed.

(** Every create and update of the scenario stamps what it wrote. *)
Lemma updatedAt_refreshed_witness :
  (exists returned stored,
      outcome run_createStory = inr (story_ (Some returned)) /\
      tblStories (store run_createStory) = tblStories empty_db ++ [stored] /\
      Stories.updatedAt stored = 100%Z /\
      Stories.updatedAt returned = 100%Z) /\
  (exists returned,
      outcome run_retitle_story = inr (story_ (Some returned)) /\
      Stories.updatedAt returned = 200%Z /\
      forall x, In x (tblStories (store run_retitle_story)) ->
                Stories.id x = "S1" -> Stories.updatedAt x = 200%Z) /\
  (exists returned stored,
      outcome run_createStoryChapter = inr (chapter_ (Some returned)) /\
      tblStoryChapters (store run_createStoryChapter) =
        tblStoryChapters db_act ++ [stored] /\
      StoryChapters.updatedAt stored = 102%Z /\
      StoryChapters.updatedAt returned = 102%Z) /\
  (exists returned,
      outcome run_retitle_chapter = inr (chapter_ (Some returned)) /\
      StoryChapters.updatedAt returned = 202%Z /\
      forall x, In x (tblStoryChapters (store run_retitle_chapter)) ->
                StoryChapters.id x = "C1" ->
                StoryChapters.updatedAt x = 202%Z) /\
  (exists returned stored,
      outcome run_createStoryScene = inr (scene_ (Some returned)) /\
      tblStoryScenes (store run_createStoryScene) =
        tblStoryScenes db_chapter ++ [stored] /\
      StoryScenes.updatedAt stored = 106%Z /\
      StoryScenes.updatedAt returned = 106%Z) /\
  (exists returned,
      outcome run_place_scene = inr (scene_ (Some returned)) /\
      StoryScenes.updatedAt returned = 203%Z /\
      forall x, In x (tblStoryScenes (store run_place_scene)) ->
                StoryScenes.id x = "N1" -> StoryScenes.updatedAt x = 203%Z) /\
  map StoryActs.createdAt (tblStoryActs (store run_retitle_act)) =
    map StoryActs.createdAt (tblStoryActs db_scene).
Proof.
  repeat apply conj.
  - destruct (updatedAt_refreshed (signed_in alice) (mkRuntime "S1" 100%Z)
                empty_db) as (H & _).
    destruct (H (CreateStory.mk "Novel A" None None None None None)
                (story_ (Some novel)) eq_refl)
      as (returned & stored & Hresp & Htbl & Hs & Hr).
    exists returned, stored. injection Hresp as <-. auto.
  - destruct (updatedAt_refreshed (signed_in alice)
                (mkRuntime "unused" 200%Z) db_story) as (_ & H & _).
    destruct (H (UpdateStory.mk "S1" (Some "Novel B") None None None None
                   None)
                (story_ (Some (Stories.mk "S1" "u1" "Novel B" None None None
                                 None None 100%Z 200%Z))) eq_refl)
      as (returned & Hresp & _ & Hr & _ & Hall).
    exists returned. injection Hresp as <-. auto.
  - destruct (updatedAt_refreshed (signed_in alice) (mkRuntime "C1" 102%Z)
                db_act) as (_ & _ & H & _).
    destruct (H (CreateStoryChapter.mk "S1" (Some "A1") None None None None)
                (chapter_ (Some first_chapter)) eq_refl)
      as (returned & stored & Hresp & Htbl & Hs & Hr).
    exists returned, stored. injection Hresp as <-. auto.
  - destruct (updatedAt_refreshed (signed_in alice)
                (mkRuntime "unused" 202%Z) db_scene) as (_ & _ & _ & H & _).
    destruct (H (UpdateStoryChapter.mk "C1" "S1" None None (Some "One") None
                   None)
                (chapter_ (Some (StoryChapters.mk "C1" "S1" (Some "A1") 1%Z
                                   (Some "One") None None 102%Z 202%Z)))
                eq_refl)
      as (returned & Hresp & _ & Hr & _ & Hall).
    exists returned. injection Hresp as <-. auto.
  - destruct (updatedAt_refreshed (signed_in alice) (mkRuntime "N1" 106%Z)
                db_chapter) as (_ & _ & _ & _ & H & _).
    destruct (H (CreateStoryScene.mk "S1" None None None None None None None)
                (scene_ (Some first_scene)) eq_refl)
      as (returned & stored & Hresp & Htbl & Hs & Hr).
    exists returned, stored. injection Hresp as <-. auto.
  - destruct (updatedAt_refreshed (signed_in alice)
                (mkRuntime "unused" 203%Z) db_scene)
      as (_ & _ & _ & _ & _ & H & _).
    destruct (H (UpdateStoryScene.mk "N1" "S1" None None (Some "Harbour")
                   None None None None)
                (scene_ (Some (StoryScenes.mk "N1" "S1" None 1%Z
                                 (Some "Harbour") None None None None 106%Z
                                 203%Z)))
                eq_refl)
      as (returned & Hresp & _ & Hr & _ & Hall).
    exists returned. injection Hresp as <-. auto.
  - destruct (updatedAt_refreshed (signed_in alice)
                (mkRuntime "unused" 201%Z) db_scene)
      as (_ & _ & _ & _ & _ & _ & H).
    exact (H (UpdateStoryAct.mk "A1" "S1" None (Some "Opening") None)
             (act_ (Some (StoryActs.mk "A1" "S1" 1%Z (Some "Opening") None
                            101%Z)))
             eq_refl).
Defined.

(** Alice deletes A1 while no chapter is under it: the act is gone and
    nothing else changed.  Once C1 is under A1 the delete is refused. *)
Lemma deleteStoryAct_no_cascade_witness :
  (outcome run_deleteStoryAct_unreferenced = inr done /\
   tblStoryActs (store run_deleteStoryAct_unreferenced) = [] /\
   tblStoryChapters (store run_deleteStoryAct_unreferenced) =
     tblStoryChapters db_act) /\
  server delete_first_act (signed_in alice) (mkRuntime "unused" 103%Z)
    db_chapter =
    mkRun (inl (DriverError foreign_key_violation)) db_chapter
      [Select Stories_; Select StoryActs_; Delete StoryActs_].
Proof.
  split.
  - pose proof (deleteStoryAct_no_cascade (DeleteStoryAct.mk "A1" "S1")
                  (signed_in alice) (mkRuntime "unused" 103%Z) db_act)
      as (_ & Hch & _ & H & _).
    change (server _ _ _ _) with run_deleteStoryAct_unreferenced in H, Hch.
    change (outcome run_deleteStoryAct_unreferenced)
      with (@inr Failure _ done) in H.
    destruct H as (_ & Hacts & _). repeat split; assumption.
  - pose proof (deleteStoryAct_no_cascade (DeleteStoryAct.mk "A1" "S1")
                  (signed_in alice) (mkRuntime "unused" 103%Z) db_chapter)
      as (_ & _ & _ & _ & H).
    apply (H first_chapter alice); try reflexivity.
    + now left.
    + exists novel. repeat split. now left.
    + exists first_act. repeat split. now left.
    + repeat split; repeat constructor.
Defined.

(** C10 fails as stated: C1 references A1, and Alice's delete of A1 removes
    nothing: it fails, A1 is still stored, and the actId of C1 names a
    stored act. *)
Lemma referenced_act_is_not_deleted :
  In first_chapter (tblStoryChapters db_chapter) /\
  StoryChapters.actId first_chapter = Some "A1" /\
  outcome run_deleteStoryAct = inl (DriverError foreign_key_violation) /\
  store run_deleteStoryAct = db_chapter /\
  In first_act (tblStoryActs (store run_deleteStoryAct)) /\
  StoryActs.id first_act = "A1".
Proof. repeat split; now left. Qed.

(** * Further properties of the actions *)

(** ** Input schemas *)

Lemma min1_nil path s : min1 path s = [] <-> s <> "".
Proof.
  unfold min1. destruct (String.eqb_spec s ""); split; congruence.
Qed.

Lemma refine_nil check message : refine check message = [] <-> check = true.
Proof. destruct check; cbn; split; congruence. Qed.

Lemma defined_false {A} (x : option A) : defined x = false <-> x = None.
Proof. destruct x; cbn; split; congruence. Qed.

Lemma app_nil_iff {A} (l l' : list A) : l ++ l' = [] <-> l = [] /\ l' = [].
Proof.
  split; [apply app_eq_nil | intros [-> ->]; reflexivity].
Qed.

Lemma Forall_one {A} (P : A -> Prop) x : Forall P [x] <-> P x.
Proof.
  split; [intros H; now inversion H | intros H; now constructor].
Qed.

Lemma Forall_two {A} (P : A -> Prop) x y : Forall P [x; y] <-> P x /\ P y.
Proof.
  split.
  - intros H. inversion H as [|? ? Hx Hy]. subst. inversion Hy. auto.
  - intros [Hx Hy]. repeat constructor; auto.
Qed.

Lemma not_all_undefined b : b = true <-> ~ (b = false).
Proof. destruct b; split; congruence. Qed.

(** X1. An input passes the schema of its action exactly when every string
    declared with min(1) is non-empty and, for an update, at least one
    mutable field is supplied. *)
Theorem schema_passes_iff (c : Call) :
  schema c = [] <->
  Forall (fun s => s <> "") (required_strings c) /\ ~ empty_update c.
Proof.
  destruct c; cbn [schema required_strings empty_update];
    unfold CreateStory.schema, UpdateStory.schema, ListStories.schema,
      CreateStoryAct.schema, UpdateStoryAct.schema, DeleteStoryAct.schema,
      ListStoryActs.schema, CreateStoryChapter.schema,
      UpdateStoryChapter.schema, DeleteStoryChapter.schema,
      ListStoryChapters.schema, CreateStoryScene.schema,
      UpdateStoryScene.schema, DeleteStoryScene.schema,
      ListStoryScenes.schema;
    rewrite ?app_nil_iff, ?min1_nil, ?refine_nil, ?Forall_one, ?Forall_two,
      ?not_all_undefined, ?orb_false_iff, ?defined_false;
    try tauto.
  - (* updateStory: the optional title *)
    destruct (UpdateStory.title input) as [t|]; cbn [min1_optional];
      rewrite ?min1_nil, ?Forall_one, ?Forall_two; [|intuition congruence].
    intuition congruence.
  - (* listStories *)
    split; [intros _; split; [constructor | tauto] | reflexivity].
Qed.

(** ** When an action succeeds *)

(** Split on the ancestor an input may link to: absent, the empty string, or
    a non-empty id. *)
Ltac split_ancestor :=
  match goal with
  | |- context [truthy ?x] =>
      let a := fresh "a" in
      let Ha := fresh "Ha" in
      let Hne := fresh "Hne" in
      destruct x as [a|] eqn:Ha;
      [ destruct (String.eqb_spec a "") as [->|Hne];
        [ | rewrite ?(nonempty_truthy _ Hne) ] | ]
  | |- context [defined ?x] =>
      let a := fresh "a" in
      let Ha := fresh "Ha" in
      destruct x as [a|] eqn:Ha
  end; cbn.

(** What the selections that found a row say about it. *)
Ltac gate_facts :=
  repeat match goal with
    | H : filter (and_ (eq_ _ _) (eq_ _ _)) _ = _ :: _ |- _ =>
        apply gate_row_full in H; destruct H as (? & ? & ?)
    end.

Ltac refute_gate :=
  match goal with
  | E : filter (and_ (eq_ ?c1 ?k1) (eq_ ?c2 ?k2)) ?l = [],
    H : exists r, In r ?l /\ ?c1 r = ?k1 /\ ?c2 r = ?k2 |- _ =>
      destruct (gate_found c1 c2 k1 k2 l H E)
  end.

Lemma safe_reads_back n : safe_integer n -> reads_back_number n = true.
Proof.
  unfold safe_integer, reads_back_number. intros H.
  apply orb_true_iff. left. now apply Z.ltb_lt.
Qed.

Lemma written_read_back {R} (oi : R -> Z) (id : R -> string) set k l :
  (forall r, In r l -> id r = k -> safe_integer (oi (set r))) ->
  forallb (fun r => reads_back_number (oi r))
    (map set (filter (eq_ id k) l)) = true.
Proof.
  intros H. apply forallb_forall. intros x Hx.
  apply in_map_iff in Hx. destruct Hx as (r & <- & Hr).
  apply filter_In in Hr. destruct Hr as [Hin Hk].
  apply safe_reads_back, H; [exact Hin|].
  unfold eq_ in Hk. now apply String.eqb_eq.
Qed.

Lemma In_stored_under {R} (key : R -> string) l k :
  In k (map key l) -> stored_under key l k = true.
Proof.
  intros H. apply in_map_iff in H. destruct H as (r & Hk & Hin).
  unfold stored_under. apply existsb_exists. exists r.
  split; [exact Hin|]. now apply String.eqb_eq.
Qed.

Lemma linked_from_none {R} (link : R -> option string) l k :
  linked_from link l k = false <-> forall r, In r l -> link r <> Some k.
Proof.
  split.
  - intros E r Hin Hk. rewrite (linked_from_found link l k r Hin Hk) in E.
    discriminate.
  - intros No. destruct (linked_from link l k) eqn:E; [|reflexivity].
    unfold linked_from in E. apply existsb_exists in E.
    destruct E as (r & Hin & Hk). destruct (link r) as [v|] eqn:Hv;
      [|discriminate].
    apply String.eqb_eq in Hk. subst v. destruct (No r Hin Hv).
Qed.

Lemma delete_accepted {R C} (id : R -> string) (link : C -> option string)
      cs k l :
  (forall c, In c cs -> link c <> Some k) ->
  existsb (fun r => eq_ id k r && linked_from link cs (id r)) l = false.
Proof.
  intros No. apply linked_from_none in No.
  destruct (existsb _ l) eqn:E; [|reflexivity].
  apply existsb_exists in E. destruct E as (r & _ & Hr).
  apply andb_true_iff in Hr. destruct Hr as [Hk Hl].
  unfold eq_ in Hk. apply String.eqb_eq in Hk. congruence.
Qed.

Lemma delete_went_through {R C} (id : R -> string)
      (link : C -> option string) cs k l r :
  existsb (fun r => eq_ id k r && linked_from link cs (id r)) l = false ->
  In r l -> id r = k ->
  forall c, In c cs -> link c <> Some k.
Proof.
  intros E Hin Hk. apply linked_from_none.
  pose proof (delete_checked id (fun r => linked_from link cs (id r))
                k l E r Hin Hk) as B.
  cbn in B. now rewrite Hk in B.
Qed.

Lemma forallb_always {R} (l : list R) : forallb (fun _ => true) l = true.
Proof. now induction l. Qed.

Lemma existsb_never {R} (w : R -> bool) l :
  existsb (fun r => w r && false) l = false.
Proof. induction l as [|x l IH]; cbn; [|rewrite andb_false_r]; auto. Qed.

Lemma success_needs_the_gates (c : Call) ctx rt d u :
  schema c = [] ->
  locals_user ctx = Some u ->
  (exists resp, outcome (server c ctx rt d) = inr resp) ->
  admissible d (App.id u) c /\ references_accepted d c.
Proof.
  intros Hs Hu.
  destruct c; cbn [schema admissible references_accepted] in *;
    unfold server, defineAction;
    try rewrite Hs; unfold owns, has_act, has_chapter, has_scene.
  all: unfold_actions; rewrite Hu; cbn.
  all: try split_ancestor.
  all: repeat case_step.
  all: intros [resp Ho]; try discriminate Ho; clear Ho.
  all: try match goal with
           | H : _ && link_stored _ _ _ = true |- _ =>
               apply andb_true_iff in H; destruct H as [_ H];
               unfold link_stored in H; try apply stored_under_In in H
           end.
  all: try match goal with
           | E : existsb _ _ = false,
             H : filter (and_ (eq_ _ _) (eq_ _ _)) ?l = _ :: _ |- _ =>
               let G := fresh "G" in
               pose proof (gate_row_full _ _ _ _ _ _ _ H) as (? & G & _);
               pose proof (delete_went_through _ _ _ _ _ _ E
                             ltac:(eassumption) G)
           end.
  all: gate_facts; repeat split; eauto.
  all: try (intros a0 E; try discriminate E; injection E as <-;
            try (intros Hc; first [now destruct Hc | clear Hc]); eauto).
Qed.

Lemma the_gates_and_the_engine_suffice (c : Call) ctx rt d u :
  schema c = [] ->
  locals_user ctx = Some u ->
  admissible d (App.id u) c ->
  references_accepted d c ->
  numbers_safe d c ->
  exists resp, outcome (server c ctx rt d) = inr resp.
Proof.
  intros Hs Hu.
  destruct c;
    cbn [schema admissible references_accepted numbers_safe] in *;
    unfold server, defineAction;
    try rewrite Hs; unfold has_act, has_chapter, has_scene.
  all: unfold_actions; rewrite Hu; cbn.
  all: intros Adm Acc Safe.
  all: repeat match goal with H : _ /\ _ |- _ => destruct H end.
  all: try match goal with
           | H : owns _ _ _ |- _ =>
               let St := fresh "St" in
               pose proof (owned_story_stored _ _ _ H) as St;
               unfold owns in H; rewrite ?St
           end.
  all: cbn.
  all: try split_ancestor.
  all: repeat match goal with
         | H : forall a0, Some ?a = Some a0 -> _ |- _ =>
             specialize (H a eq_refl)
         | H : ?a <> "" -> _, Hne : ?a <> "" |- _ => specialize (H Hne)
         end.
  all: try match goal with
           | H : In _ (map _ _) |- _ =>
               apply In_stored_under in H; unfold link_stored; rewrite ?H
           end.
  all: repeat case_step.
  all: try (eexists; reflexivity).
  all: try refute_gate.
  all: exfalso.
  all: try congruence.
  all: try (rewrite forallb_always in Eng; discriminate Eng).
  all: try match goal with
           | E : forallb ?f (map ?set (filter (eq_ ?id ?k) ?l)) = false
             |- _ =>
               assert (forallb f (map set (filter (eq_ id k) l)) = true)
                 by (apply (written_read_back _ id set k l); exact Safe);
               congruence
           end.
  all: try (rewrite (safe_reads_back _ Safe) in *; discriminate).
  all: try (rewrite (delete_accepted _ _ _ _ _ Acc) in Eng; discriminate Eng).
  all: try (rewrite St, ?Acc in Eng; discriminate Eng).
  rewrite existsb_never in Eng. discriminate Eng.
Qed.

(** X2. With a caller and a schema-valid input, an action succeeds only if
    its ownership gates hold (the named story is the caller's, the target
    entity is stored under that story, and so is the ancestor the input
    links to, which the create and list actions look up only when its id is
    non-empty) and the foreign keys accept its statement.  And it does
    succeed when the gates hold, the foreign keys accept the statement, the
    id generated for a create is not yet in its table, and every orderIndex
    that is stored or that the statement writes is a safe integer. *)
Theorem success_and_the_gates (c : Call) ctx rt d u :
  schema c = [] ->
  locals_user ctx = Some u ->
  ((exists resp, outcome (server c ctx rt d) = inr resp) ->
   admissible d (App.id u) c /\ references_accepted d c) /\
  (admissible d (App.id u) c ->
   references_accepted d c ->
   key_accepted d rt c ->
   integers_safe d ->
   numbers_safe d c ->
   exists resp, outcome (server c ctx rt d) = inr resp).
Proof.
  intros Hs Hu. split.
  - now apply success_needs_the_gates.
  - intros Adm Acc _ _ Safe.
    now apply (the_gates_and_the_engine_suffice c ctx rt d u).
Qed.

(** ** Listing the stories *)


(** ** What an action leaves alone *)

(** X4. Whatever its outcome, an action changes no table but its own: the
    story actions leave acts, chapters and scenes as they are, the act
    actions leave stories, chapters and scenes, and so on. *)
Theorem only_own_table_written (c : Call) ctx rt d :
  (table_of c <> Stories_ ->
   tblStories (store (server c ctx rt d)) = tblStories d) /\
  (table_of c <> StoryActs_ ->
   tblStoryActs (store (server c ctx rt d)) = tblStoryActs d) /\
  (table_of c <> StoryChapters_ ->
   tblStoryChapters (store (server c ctx rt d)) = tblStoryChapters d) /\
  (table_of c <> StoryScenes_ ->
   tblStoryScenes (store (server c ctx rt d)) = tblStoryScenes d).
Proof.
  destruct c; cbn [table_of]; run_action; repeat split;
    intros Ht; solve [reflexivity | now destruct Ht].
Qed.

Lemma stories_keys_kept (c : Call) ctx rt d :
  exists added,
    map story_key (tblStories (store (server c ctx rt d))) =
    map story_key (tblStories d) ++ added.
Proof.
  destruct c; run_action;
    try (exists []; rewrite app_nil_r; reflexivity).
  all: try (eexists; rewrite map_app; reflexivity).
  all: exists []; rewrite app_nil_r;
    apply (rewrite_rows_map (UpdateStory.set input rt)); reflexivity.
Qed.

Lemma owns_by_key d d' uid sid :
  incl (map story_key (tblStories d)) (map story_key (tblStories d')) ->
  owns d uid sid -> owns d' uid sid.
Proof.
  intros Hincl (s & Hin & Hid & Huid).
  assert (In (story_key s) (map story_key (tblStories d'))) as H
      by (apply Hincl; now apply in_map).
  apply in_map_iff in H. destruct H as (s' & Hk & Hin').
  unfold story_key in Hk. injection Hk as H1 H2 _.
  exists s'. repeat split; congruence.
Qed.

(** X5. No action removes a story, changes the id, the owner or the creation
    time of a story, or reorders the stories: the stored (id, userId,
    createdAt) triples after a call are those before it, followed by what
    the call added.  So a story a user owns stays theirs after any call by
    anyone. *)
Theorem stories_are_permanent (c : Call) ctx rt d :
  (exists added,
      map story_key (tblStories (store (server c ctx rt d))) =
      map story_key (tblStories d) ++ added) /\
  (forall uid sid,
      owns d uid sid -> owns (store (server c ctx rt d)) uid sid).
Proof.
  split; [apply stories_keys_kept|].
  intros uid sid. apply owns_by_key.
  destruct (stories_keys_kept c ctx rt d) as [added ->].
  apply incl_appl, incl_refl.
Qed.

(** ** Primary keys *)

(** X6. The primary keys are kept by every action: when no two rows of a
    table share an id before a call, and the id that randomUUID yields for
    the call is not yet stored in the table the call inserts into, no two
    rows of a table share an id after it. *)
Theorem primary_keys_preserved (c : Call) ctx rt d :
  keys_ok d ->
  ~ In (randomUUID rt) (stored_ids d (table_of c)) ->
  keys_ok (store (server c ctx rt d)).
Proof.
  unfold keys_ok. intros (Ks & Ka & Kc & Kn) Hfresh.
  destruct c; cbn [table_of stored_ids] in Hfresh; run_action;
    repeat split; auto;
    solve [ apply primary_key_insert; auto
          | apply primary_key_rewrite; auto
          | apply primary_key_filter; auto ].
Qed.

(** ** Other users' data *)

Lemma others_insert {R} (col : R -> string) (own : string -> bool) l r :
  own (col r) = true ->
  filter (fun x => negb (own (col x))) (l ++ [r]) =
  filter (fun x => negb (own (col x))) l.
Proof.
  intros H. rewrite filter_app. cbn. rewrite H. cbn. apply app_nil_r.
Qed.

Lemma gate_rows_owned {R} (id col : R -> string) (own : string -> bool)
      k v l s rest :
  primary_key id l ->
  filter (and_ (eq_ id k) (eq_ col v)) l = s :: rest ->
  own v = true ->
  forall r, In r l -> eq_ id k r = true -> own (col r) = true.
Proof.
  intros Hpk E Hown r Hin Hw.
  apply gate_row_full in E. destruct E as (Hs & Hk & Hv).
  unfold eq_ in Hw. apply String.eqb_eq in Hw.
  rewrite (primary_key_row id l r s Hpk Hin Hs) by congruence.
  now rewrite Hv.
Qed.

Lemma others_update {R} (id col : R -> string) (own : string -> bool)
      set k v l s rest :
  primary_key id l ->
  filter (and_ (eq_ id k) (eq_ col v)) l = s :: rest ->
  own v = true ->
  (forall r, col (set r) = col r) ->
  filter (fun x => negb (own (col x))) (rewrite_rows set (eq_ id k) l) =
  filter (fun x => negb (own (col x))) l.
Proof.
  intros Hpk E Hown Hcol.
  pose proof (gate_rows_owned id col own k v l s rest Hpk E Hown) as G.
  clear E Hpk. unfold rewrite_rows.
  induction l as [|x l IH]; cbn; [reflexivity|].
  rewrite IH by (intros; apply G; [now right | assumption]).
  destruct (eq_ id k x) eqn:W; [|reflexivity].
  rewrite Hcol, (G x (or_introl eq_refl) W). reflexivity.
Qed.

Lemma others_delete {R} (id col : R -> string) (own : string -> bool)
      k v l s rest :
  primary_key id l ->
  filter (and_ (eq_ id k) (eq_ col v)) l = s :: rest ->
  own v = true ->
  filter (fun x => negb (own (col x)))
    (filter (fun r => negb (eq_ id k r)) l) =
  filter (fun x => negb (own (col x))) l.
Proof.
  intros Hpk E Hown.
  pose proof (gate_rows_owned id col own k v l s rest Hpk E Hown) as G.
  clear E Hpk.
  induction l as [|x l IH]; cbn; [reflexivity|].
  rewrite <- IH by (intros; apply G; [now right | assumption]).
  destruct (eq_ id k x) eqn:W; cbn; [|reflexivity].
  now rewrite (G x (or_introl eq_refl) W).
Qed.

Lemma owned_by_selected d sid uid s rest :
  filter (and_ (eq_ Stories.id sid) (eq_ Stories.userId uid))
    (tblStories d) = s :: rest ->
  owned_by d uid sid = true.
Proof.
  intros E. apply filter_head_in in E. unfold owned_by.
  apply existsb_exists. eauto.
Qed.

Lemma owned_by_owns d uid sid : owned_by d uid sid = true <-> owns d uid sid.
Proof.
  unfold owned_by, owns. rewrite existsb_exists.
  split; intros (s & Hin & H); exists s; (split; [exact Hin|]);
    unfold owned_story_cond, and_, eq_ in *.
  - apply andb_true_iff in H. now rewrite !String.eqb_eq in H.
  - destruct H as [-> ->]. now rewrite !String.eqb_refl.
Qed.

Ltac others_leaf u d :=
  first
    [ reflexivity
    | apply (others_insert Stories.userId
               (fun x => String.eqb x (App.id u)));
      apply String.eqb_refl
    | eapply (others_update Stories.id Stories.userId
                (fun x => String.eqb x (App.id u)));
      [ eassumption | eassumption | apply String.eqb_refl | reflexivity ]
    | apply (others_insert _ (owned_by d (App.id u)));
      eapply owned_by_selected; eassumption
    | eapply (others_update _ _ (owned_by d (App.id u)));
      [ eassumption | eassumption
      | eapply owned_by_selected; eassumption | reflexivity ]
    | eapply (others_delete _ _ (owned_by d (App.id u)));
      [ eassumption | eassumption
      | eapply owned_by_selected; eassumption ] ].

(** X7. A call leaves the data of everyone but its caller as it was.  With
    primary keys on the tables, after any call by user [u], whatever its
    outcome, the stories that are not [u]'s and the acts, chapters and scenes
    that belong to no story of [u] are stored exactly as before, in the same
    order: none is changed, removed or added. *)
Theorem others_data_untouched (c : Call) ctx rt d u :
  locals_user ctx = Some u ->
  keys_ok d ->
  stories_of_others (App.id u) (tblStories (store (server c ctx rt d))) =
    stories_of_others (App.id u) (tblStories d) /\
  rows_of_others d (App.id u) StoryActs.storyId
    (tblStoryActs (store (server c ctx rt d))) =
    rows_of_others d (App.id u) StoryActs.storyId (tblStoryActs d) /\
  rows_of_others d (App.id u) StoryChapters.storyId
    (tblStoryChapters (store (server c ctx rt d))) =
    rows_of_others d (App.id u) StoryChapters.storyId (tblStoryChapters d) /\
  rows_of_others d (App.id u) StoryScenes.storyId
    (tblStoryScenes (store (server c ctx rt d))) =
    rows_of_others d (App.id u) StoryScenes.storyId (tblStoryScenes d).
Proof.
  intros Hu (Ks & Ka & Kc & Kn).
  unfold stories_of_others, rows_of_others.
  destruct c; unfold_actions; rewrite Hu; cbn; repeat case_step;
    repeat split; others_leaf u d.
Qed.

(** ** References to stories *)

Lemma story_selected_stored d sid uid s rest :
  filter (and_ (eq_ Stories.id sid) (eq_ Stories.userId uid))
    (tblStories d) = s :: rest ->
  In sid (map Stories.id (tblStories d)).
Proof.
  intros E. apply gate_row_full in E. destruct E as (Hin & Hid & _).
  rewrite <- Hid. now apply in_map.
Qed.

Lemma incl_map_insert {R A} (f : R -> A) l r S :
  incl (map f l) S -> In (f r) S -> incl (map f (l ++ [r])) S.
Proof.
  intros Hl Hr x Hx. rewrite map_app in Hx. apply in_app_or in Hx.
  destruct Hx as [Hx|[<-|[]]]; auto.
Qed.

Lemma incl_map_rewrite {R A} (f : R -> A) set (w : Cond R) l S :
  (forall r, f (set r) = f r) ->
  incl (map f l) S -> incl (map f (rewrite_rows set w l)) S.
Proof. intros Hf. now rewrite rewrite_rows_map. Qed.

Lemma incl_map_filter {R A} (f : R -> A) (p : R -> bool) l S :
  incl (map f l) S -> incl (map f (filter p l)) S.
Proof.
  intros Hl x Hx. apply Hl. apply in_map_iff in Hx.
  destruct Hx as (r & <- & Hr). apply in_map. apply filter_In in Hr. tauto.
Qed.

Lemma incl_into_rewrite {R A} (f : R -> A) set (w : Cond R) l S :
  (forall r, f (set r) = f r) ->
  incl S (map f l) -> incl S (map f (rewrite_rows set w l)).
Proof. intros Hf. now rewrite rewrite_rows_map. Qed.

Lemma incl_into_insert {R A} (f : R -> A) l r S :
  incl S (map f l) -> incl S (map f (l ++ [r])).
Proof. intros H. rewrite map_app. now apply incl_appl. Qed.

(** X8. Every action keeps the references to stories whole: when every act,
    chapter and scene names a stored story before a call, so does every one
    after it.  (The links from chapters to acts and from scenes to chapters
    have no such invariant.) *)
Theorem story_references_preserved (c : Call) ctx rt d :
  stories_exist d -> stories_exist (store (server c ctx rt d)).
Proof.
  unfold stories_exist, stored_ids. intros (Ha & Hc & Hs).
  destruct c; run_action; repeat split; auto;
    solve [ apply incl_into_insert; assumption
          | apply incl_into_rewrite; [reflexivity | assumption]
          | apply incl_map_insert;
            [assumption | eapply story_selected_stored; eassumption]
          | apply incl_map_rewrite; [reflexivity | assumption]
          | apply incl_map_filter; assumption ].
Qed.

(** ** Deleting *)

Lemma deleted_not_selected {R} (id : R -> string) k (q : Cond R) l :
  filter (and_ (eq_ id k) q) (filter (fun r => negb (eq_ id k r)) l) = [].
Proof.
  induction l as [|x l IH]; cbn; [reflexivity|].
  destruct (eq_ id k x) eqn:W; cbn; [exact IH|].
  unfold and_ at 1. rewrite W. exact IH.
Qed.

Lemma ids_after_delete {R} (id : R -> string) k l :
  map id (filter (fun r => negb (eq_ id k r)) l) =
  filter (fun x => negb (String.eqb x k)) (map id l).
Proof.
  induction l as [|x l IH]; cbn; [reflexivity|].
  unfold eq_ at 1. destruct (String.eqb (id x) k); cbn; now rewrite IH.
Qed.

Ltac refute_deleted :=
  match goal with
  | H : filter (and_ (eq_ ?id ?k) ?q)
          (filter (fun r => negb (eq_ ?id ?k r)) ?l) = _ :: _ |- _ =>
      rewrite (deleted_not_selected id k q l) in H; discriminate H
  end.

(** X9. A successful delete of an act, a chapter or a scene answers with the
    bare acknowledgment and removes the id from the ids of its table, keeping
    the other ids in order; after it, the same delete, by any caller, fails
    with NOT_FOUND before any write. *)
Theorem deleted_is_gone (c : Call) ctx rt d k resp ctx' rt' u' :
  deletes c = Some k ->
  outcome (server c ctx rt d) = inr resp ->
  locals_user ctx' = Some u' ->
  resp = done /\
  stored_ids (store (server c ctx rt d)) (table_of c) =
    filter (fun x => negb (String.eqb x k)) (stored_ids d (table_of c)) /\
  ~ In k (stored_ids (store (server c ctx rt d)) (table_of c)) /\
  not_found_before_write
    (server c ctx' rt' (store (server c ctx rt d)))
    (store (server c ctx rt d)).
Proof.
  intros Hd Ho Hu'.
  assert (forall l, ~ In k (filter (fun x => negb (String.eqb x k)) l))
    as Hgone.
  { intros l Hin. apply filter_In in Hin. destruct Hin as [_ Hne].
    now rewrite String.eqb_refl in Hne. }
  destruct c; try discriminate Hd; injection Hd as <-;
    cbn [table_of stored_ids]; unfold not_found_before_write;
    revert Ho; unfold_actions; rewrite Hu'; cbn; repeat case_step;
    intros Ho; try discriminate Ho; try refute_deleted;
    injection Ho as <-; rewrite ?ids_after_delete;
    (split; [reflexivity|]); (split; [reflexivity|]);
    (split; [apply Hgone|]); eexists; repeat split.
Qed.

(** ** What the list actions return *)




(** ** Creating, then listing *)

Ltac listed_after_insert :=
  rewrite filter_app; cbn; unfold eq_ at 2; cbn; rewrite String.eqb_refl;
  rewrite length_app; reflexivity.


(** ** Updating twice *)










(** Step through nested runs from the inside: the caller and the schema
    first, then the selections on the tables of the initial store. *)
Ltac step_inner :=
  match goal with
  | |- context [match locals_user ?c with _ => _ end] =>
      let E := fresh "Usr" in destruct (locals_user c) eqn:E
  | |- context [match ?s with [] => _ | _ => _ end] =>
      match type of s with
      | list Issue => let E := fresh "Sch" in destruct s eqn:E
      end
  | |- context [if defined ?x then _ else _] =>
      let E := fresh "Df" in destruct (defined x) eqn:E
  | |- context [match filter ?w (?tbl ?d) with _ => _ end] =>
      is_var d; let E := fresh "Sel" in destruct (filter w (tbl d)) eqn:E
  end; cbn.


(** ** A missing entity in an owned story *)

Lemma no_gate_row {R} (id storyId : R -> string) k sid l :
  ~ In sid (map storyId (filter (eq_ id k) l)) ->
  filter (and_ (eq_ id k) (eq_ storyId sid)) l = [].
Proof.
  intros No. destruct (filter (and_ _ _) l) eqn:E; [reflexivity|].
  destruct No. eapply gate_row_story; eauto.
Qed.

(** X13. When the caller owns the named story but no row stored under the
    target id belongs to it, an update or a delete of an act, a chapter or a
    scene with an input that passes the schema fails after two selections, on the stories and on its table, with
    NOT_FOUND and the message of its table ("Act not found.", "Chapter not
    found.", "Scene not found."); the store is untouched. *)
Theorem missing_entity_reported (c : Call) ctx rt d u sid stories :
  schema c = [] ->
  locals_user ctx = Some u ->
  storyId_of c = Some sid ->
  target_stories d c = Some stories ->
  owns d (App.id u) sid ->
  ~ In sid stories ->
  server c ctx rt d =
    mkRun (inl (ActionError NOT_FOUND (not_found_message (table_of c)))) d
      [Select Stories_; Select (table_of c)].
Proof.
  intros Hs Hu Hid Ht Hown Hno.
  apply owned_story_found in Hown. destruct Hown as (s & rest & Hsel).
  destruct c; cbn [target_stories] in Ht; try discriminate Ht;
    injection Ht as <-; cbn [storyId_of] in Hid; injection Hid as <-;
    apply no_gate_row in Hno; cbn [schema] in Hs;
    unfold server, defineAction; rewrite Hs; unfold_actions;
    rewrite Hu; cbn; rewrite Hsel; cbn; rewrite Hno; reflexivity.
Qed.

(** ** The ownership resolvers *)


(** ** Creating a story *)

(** X15. createStory needs no ownership: for a caller, a non-empty title
    and a generated id that is not yet the id of a story, it succeeds.  It
    appends one story, which carries the generated id, the caller as owner,
    the input's title, and the time of the call as both createdAt and
    updatedAt; the story it returns has that id, owner and times.  And the
    caller's listStories, which returned some items before, returns one
    more after: the ids of the same items, followed by the generated id. *)
Theorem created_story_is_listed i j ctx rt rt' d u :
  CreateStory.title i <> "" ->
  locals_user ctx = Some u ->
  ~ In (randomUUID rt) (stored_ids d Stories_) ->
  exists returned stored before after,
    outcome (server (createStory i) ctx rt d) =
      inr (story_ (Some returned)) /\
    tblStories (store (server (createStory i) ctx rt d)) =
      tblStories d ++ [stored] /\
    Stories.id stored = randomUUID rt /\
    Stories.userId stored = App.id u /\
    Stories.title stored = CreateStory.title i /\
    Stories.createdAt stored = now rt /\
    Stories.updatedAt stored = now rt /\
    Stories.id returned = randomUUID rt /\
    Stories.userId returned = App.id u /\
    Stories.createdAt returned = now rt /\
    Stories.updatedAt returned = now rt /\
    outcome (server (listStories j) ctx rt' d) =
      inr (stories_ before (length before)) /\
    outcome (server (listStories j) ctx rt'
               (store (server (createStory i) ctx rt d))) =
      inr (stories_ after (length before + 1)) /\
    map Stories.id after = map Stories.id before ++ [randomUUID rt].
Proof.
  intros Ht Hu _. apply (min1_nil "title") in Ht.
  unfold_actions. unfold CreateStory.schema. rewrite Ht, Hu. cbn.
  do 4 eexists. repeat (split; [reflexivity|]).
  split; [listed_after_insert | rewrite map_app; reflexivity].
Qed.

(** ** The empty string as an ancestor id *)

Lemma not_stored_under {R} (key : R -> string) l k :
  ~ In k (map key l) -> stored_under key l k = false.
Proof.
  intros No. destruct (stored_under key l k) eqn:E; [|reflexivity].
  destruct No. now apply stored_under_In.
Qed.

(** X16. The create and list actions test a linked ancestor id for
    truthiness, so the empty string counts as no link when looking it up,
    yet it is what the create hands to the engine.  For a caller who owns
    the story, createStoryChapter with actId "" and createStoryScene with
    chapterId "" go from the story lookup straight to the insert; and when
    no act (no chapter) is stored under the empty id, the engine rejects the
    insert on the foreign key and the store is as before.  listStoryChapters
    and listStoryScenes with "" run exactly as without a narrowing id. *)
Theorem empty_ancestor_id_skips_lookup ctx rt d u :
  locals_user ctx = Some u ->
  (forall i,
      CreateStoryChapter.schema i = [] ->
      CreateStoryChapter.actId i = Some "" ->
      owns d (App.id u) (CreateStoryChapter.storyId i) ->
      log (server (createStoryChapter i) ctx rt d) =
        [Select Stories_; Insert StoryChapters_] /\
      (~ In "" (stored_ids d StoryActs_) ->
       server (createStoryChapter i) ctx rt d =
         mkRun (inl (DriverError foreign_key_violation)) d
           [Select Stories_; Insert StoryChapters_])) /\
  (forall i,
      CreateStoryScene.schema i = [] ->
      CreateStoryScene.chapterId i = Some "" ->
      owns d (App.id u) (CreateStoryScene.storyId i) ->
      log (server (createStoryScene i) ctx rt d) =
        [Select Stories_; Insert StoryScenes_] /\
      (~ In "" (stored_ids d StoryChapters_) ->
       server (createStoryScene i) ctx rt d =
         mkRun (inl (DriverError foreign_key_violation)) d
           [Select Stories_; Insert StoryScenes_])) /\
  (forall sid,
      server (listStoryChapters (ListStoryChapters.mk sid (Some ""))) ctx rt d =
      server (listStoryChapters (ListStoryChapters.mk sid None)) ctx rt d) /\
  (forall sid,
      server (listStoryScenes (ListStoryScenes.mk sid (Some ""))) ctx rt d =
      server (listStoryScenes (ListStoryScenes.mk sid None)) ctx rt d).
Proof.
  intros Hu. repeat apply conj; try reflexivity;
    intros i Hs Ha Hown;
    pose proof (owned_story_stored _ _ _ Hown) as St;
    apply owned_story_found in Hown;
    destruct Hown as (s & rest & Hsel);
    unfold_actions; rewrite Hs, Hu, Ha; cbn; rewrite Hsel; cbn;
    rewrite St; unfold link_stored; cbn.
  all: split;
    [ repeat engine_step; reflexivity
    | intros No; cbn in No; rewrite (not_stored_under _ _ _ No);
      reflexivity ].
Qed.

(** ** Links are never cleared *)

Lemma Forall2_rewrite {R} (P : R -> R -> Prop) set (w : Cond R) l :
  (forall r, P r r) -> (forall r, P r (set r)) ->
  Forall2 P l (rewrite_rows set w l).
Proof.
  intros Hr Hs. induction l as [|x l IH]; cbn; constructor; auto.
  destruct (w x); auto.
Qed.

Lemma assign_opt_linked {A} (x stored : option A) :
  stored <> None -> assign_opt x stored <> None.
Proof. destruct x; cbn; [discriminate | auto]. Qed.

(** X17. An update never clears a link.  After a successful updateStoryChapter
    every stored chapter that had an actId still has one, and after a
    successful updateStoryScene every stored scene that had a chapterId still
    has one: the schemas accept no null, so the actions offer no way to
    detach a chapter from its act or a scene from its chapter. *)
Theorem update_never_unlinks ctx rt d :
  (forall i resp,
      outcome (server (updateStoryChapter i) ctx rt d) = inr resp ->
      Forall2 (fun old new =>
                 StoryChapters.id new = StoryChapters.id old /\
                 (StoryChapters.actId old <> None ->
                  StoryChapters.actId new <> None))
        (tblStoryChapters d)
        (tblStoryChapters (store (server (updateStoryChapter i) ctx rt d)))) /\
  (forall i resp,
      outcome (server (updateStoryScene i) ctx rt d) = inr resp ->
      Forall2 (fun old new =>
                 StoryScenes.id new = StoryScenes.id old /\
                 (StoryScenes.chapterId old <> None ->
                  StoryScenes.chapterId new <> None))
        (tblStoryScenes d)
        (tblStoryScenes (store (server (updateStoryScene i) ctx rt d)))).
Proof.
  split; intros i resp; run_action; intros Ho; close_failed;
    apply Forall2_rewrite; intros r'; (split; [reflexivity|]); auto;
    cbn; apply assign_opt_linked.
Qed.

(** ** Creating, then deleting *)

Lemma delete_inserted {R} (id : R -> string) k l r :
  id r = k -> ~ In k (map id l) ->
  filter (fun x => negb (eq_ id k x)) (l ++ [r]) = l.
Proof.
  intros Hr Hfresh. rewrite filter_app. cbn. unfold eq_ at 2.
  rewrite Hr, String.eqb_refl. cbn. rewrite app_nil_r.
  induction l as [|x l IH]; cbn; [reflexivity|].
  cbn in Hfresh. unfold eq_ at 1.
  destruct (String.eqb_spec (id x) k) as [E|E]; [tauto|].
  cbn. rewrite IH; tauto.
Qed.

Lemma inserted_selected {R} (id col : R -> string) k v l r :
  id r = k -> col r = v -> ~ In k (map id l) ->
  filter (and_ (eq_ id k) (eq_ col v)) (l ++ [r]) = [r].
Proof.
  intros Hk Hv Hfresh. rewrite filter_app. cbn. unfold and_ at 2, eq_.
  rewrite Hk, Hv, !String.eqb_refl. cbn.
  replace (filter _ l) with (@nil R); [reflexivity|].
  symmetry. induction l as [|x l IH]; cbn; [reflexivity|].
  cbn in Hfresh. unfold and_ at 1.
  destruct (String.eqb_spec (id x) k) as [E|E]; [tauto|].
  cbn. apply IH. tauto.
Qed.

(** X18. A create that is undone leaves no trace.  In a store whose foreign
    keys hold, when createStoryAct, createStoryChapter or createStoryScene
    succeeds with a generated id that is non-empty and not yet stored in its
    table, the caller's delete of that id under the same story succeeds, and
    the store after it is the store before the create. *)
Theorem create_then_delete_restores (c c' : Call) ctx rt rt' d resp :
  undo c rt = Some c' ->
  randomUUID rt <> "" ->
  ~ In (randomUUID rt) (stored_ids d (table_of c)) ->
  references_hold d ->
  outcome (server c ctx rt d) = inr resp ->
  outcome (server c' ctx rt' (store (server c ctx rt d))) = inr done /\
  store (server c' ctx rt' (store (server c ctx rt d))) = d.
Proof.
  intros Hundo Hne Hfresh (Hacts & Hchapters).
  apply (min1_nil "id") in Hne.
  destruct c; cbn [undo] in Hundo; try discriminate Hundo;
    injection Hundo as <-; cbn [table_of stored_ids] in Hfresh;
    unfold_actions;
    unfold CreateStoryAct.schema, DeleteStoryAct.schema,
      CreateStoryChapter.schema, DeleteStoryChapter.schema,
      CreateStoryScene.schema, DeleteStoryScene.schema; cbn;
    rewrite Hne; cbn;
    repeat first
      [ rewrite inserted_selected by (reflexivity || assumption); cbn
      | match goal with
        | H : filter ?w ?l = _ |- context [filter ?w ?l] => rewrite H; cbn
        end
      | step_inner
      | match goal with
        | |- context [if truthy ?x then _ else _] =>
            destruct (truthy x); cbn
        end
      | rewrite delete_accepted
          by (intros c0 Hc0 E0; apply Hfresh;
              first [exact (Hacts _ _ Hc0 E0) | exact (Hchapters _ _ Hc0 E0)]);
        cbn
      | rewrite existsb_never; cbn
      | engine_step ];
    intros Ho; try discriminate Ho;
    rewrite delete_inserted by (reflexivity || assumption);
    destruct d; split; reflexivity.
Qed.

(** ** The foreign keys *)

Lemma references_as_links d :
  references_hold d <->
  linked StoryActs.id (fun _ => "") StoryChapters.actId (fun _ => "")
    (tblStoryActs d) (tblStoryChapters d) /\
  linked StoryChapters.id (fun _ => "") StoryScenes.chapterId (fun _ => "")
    (tblStoryChapters d) (tblStoryScenes d).
Proof.
  unfold references_hold, linked, stored_ids.
  split; intros [Ha Hc]; split; intros x k Hin Hk.
  - pose proof (Ha x k Hin Hk) as H. apply in_map_iff in H.
    destruct H as (p & Hp & Hpin). now exists p.
  - pose proof (Hc x k Hin Hk) as H. apply in_map_iff in H.
    destruct H as (p & Hp & Hpin). now exists p.
  - destruct (Ha x k Hin Hk) as (p & Hpin & <- & _). now apply in_map.
  - destruct (Hc x k Hin Hk) as (p & Hpin & <- & _). now apply in_map.
Qed.

Lemma link_accepted {P} (pid : P -> string) ps link :
  link_stored pid ps link = true ->
  forall k, link = Some k -> exists p, In p ps /\ pid p = k /\ "" = "".
Proof.
  intros St k ->. apply stored_under_In in St.
  apply in_map_iff in St. destruct St as (p & Hp & Hin). now exists p.
Qed.

Lemma link_looked_up {P} (pid psid : P -> string) ps link sid r rest :
  filter (and_ (eq_ pid (narrowed link)) (eq_ psid sid)) ps = r :: rest ->
  forall k, link = Some k -> exists p, In p ps /\ pid p = k /\ "" = "".
Proof.
  intros E k Hk. destruct (link_checked _ _ _ _ _ _ _ E k Hk) as (p & H).
  exists p. tauto.
Qed.

Lemma rewritten_link {P C} (pid : P -> string) (clink : C -> option string)
      ps cs (link : option string) (set : C -> C) (w : Cond C) :
  linked pid (fun _ => "") clink (fun _ => "") ps cs ->
  (forall c, clink (set c) = assign_opt link (clink c)) ->
  (forall a, link = Some a -> exists p, In p ps /\ pid p = a /\ "" = "") ->
  linked pid (fun _ => "") clink (fun _ => "") ps (rewrite_rows set w cs).
Proof.
  intros L Hlink New. apply linked_child_rewrite; [exact L|].
  intros c a Hc _ Hl. rewrite Hlink in Hl.
  destruct link as [a'|]; cbn in Hl.
  - injection Hl as <-. now apply New.
  - exact (L c a Hc Hl).
Qed.

(** X21. The foreign keys between acts, chapters and scenes are kept by
    every action, whatever its outcome: when the actId of every chapter is
    the id of a stored act and the chapterId of every scene the id of a
    stored chapter before a call, the same holds after it. *)
Theorem references_kept (c : Call) ctx rt d :
  references_hold d -> references_hold (store (server c ctx rt d)).
Proof.
  rewrite !references_as_links. intros (La & Lc).
  destruct c; run_action; split; try assumption;
    try match goal with
        | H : _ && link_stored _ _ _ = true |- _ =>
            apply andb_true_iff in H; destruct H as [_ H]
        end;
    solve
      [ apply linked_parent_insert; assumption
      | apply linked_parent_rewrite;
        [intros; reflexivity | intros; reflexivity | assumption]
      | apply linked_parent_delete; assumption
      | apply linked_child_without; assumption
      | apply linked_child_insert; [assumption|]; cbn;
        eapply link_accepted; eassumption
      | eapply rewritten_link;
        [ eassumption | intros; reflexivity | ];
        first [ eapply link_looked_up; eassumption
              | let a := fresh in let Ha := fresh in
                intros a Ha; rewrite Ha in *; discriminate ] ].
Qed.

(** ** Answers and failures *)

(** X19. The answer of a successful action has the shape of its action: a
    create or an update returns its row, which is never missing, a list
    returns items with their number as total, and a delete returns the bare
    acknowledgment. *)
Theorem response_shape (c : Call) ctx rt d resp :
  outcome (server c ctx rt d) = inr resp -> well_shaped c resp.
Proof.
  destruct c; run_action; intros Ho; close_failed; injection Ho as <-;
    cbn; auto.
  all: match goal with
       | H : filter (and_ ?w _) ?l = ?s :: _
         |- context [filter ?w ?l] =>
           let F := fresh in
           destruct (filter w l) eqn:F; cbn; [|exact I];
           apply gate_row_matches in H; destruct H as [Hin Hw];
           pose proof (filter_nil_none w l F s Hin); congruence
       end.
Qed.

(** X20. The two actions that need no ownership have no NOT_FOUND: a failed
    listStories is UNAUTHORIZED, and a failed createStory is either the
    input error or UNAUTHORIZED. *)
Theorem root_actions_never_not_found ctx rt d :
  (forall i e,
      outcome (server (listStories i) ctx rt d) = inl e ->
      kind e = Unauthorized) /\
  (forall i e,
      outcome (server (createStory i) ctx rt d) = inl e ->
      kind e = ValidationError \/ kind e = Unauthorized).
Proof.
  split; intros i e; run_action; intros Ho; try discriminate Ho;
    injection Ho as <-; auto.
Qed.

(** ** The further properties on the scenario *)

Ltac distinct_ids :=
  unfold primary_key; cbn;
  repeat (constructor; [cbn; intuition discriminate|]); constructor.

Lemma schema_passes_iff_witness : schema retitle_story = [].
Proof.
  apply (proj2 (schema_passes_iff retitle_story)). split.
  - repeat constructor; discriminate.
  - cbn. intros (H & _). discriminate H.
Defined.

(** Alice's creation of C1 under A1 succeeded, so its gates held and A1 was
    stored; and her retitling of A1 meets the gates and the engine, so it
    succeeds. *)
Lemma success_and_the_gates_witness :
  (admissible db_act "u1"
     (createStoryChapter
        (CreateStoryChapter.mk "S1" (Some "A1") None None None None)) /\
   references_accepted db_act
     (createStoryChapter
        (CreateStoryChapter.mk "S1" (Some "A1") None None None None))) /\
  exists resp,
    outcome (server retitle_act (signed_in alice) later db_act) = inr resp.
Proof.
  split.
  - apply (proj1 (success_and_the_gates
                    (createStoryChapter
                       (CreateStoryChapter.mk "S1" (Some "A1") None None None
                          None))
                    (signed_in alice) (mkRuntime "C1" 102%Z) db_act alice
                    eq_refl eq_refl)).
    exists (chapter_ (Some first_chapter)). reflexivity.
  - apply (proj2 (success_and_the_gates retitle_act (signed_in alice) later
                    db_act alice eq_refl eq_refl)).
    + split; [exists novel | exists first_act]; repeat split; now left.
    + exact I.
    + exact I.
    + repeat split; repeat constructor.
    + intros r [<-|[]] _. reflexivity.
Defined.


Lemma only_own_table_written_witness :
  tblStories (store run_createStoryAct) = tblStories db_story.
Proof.
  apply (proj1 (only_own_table_written
                  (createStoryAct (CreateStoryAct.mk "S1" None None None))
                  (signed_in alice) (mkRuntime "A1" 101%Z) db_story)).
  discriminate.
Defined.

Lemma stories_are_permanent_witness :
  owns (store (server bob_updates_act (signed_in bob) later db_act))
    "u1" "S1".
Proof.
  apply (proj2 (stories_are_permanent bob_updates_act (signed_in bob) later
                  db_act) "u1" "S1").
  exists novel. repeat split. now left.
Defined.

Lemma primary_keys_preserved_witness : keys_ok db_act.
Proof.
  apply (primary_keys_preserved
           (createStoryAct (CreateStoryAct.mk "S1" None None None))
           (signed_in alice) (mkRuntime "A1" 101%Z) db_story).
  - repeat split; distinct_ids.
  - cbn. tauto.
Defined.

Lemma others_data_untouched_witness :
  stories_of_others "u2"
    (tblStories (store (server retitle_story (signed_in bob) later db_act))) =
  stories_of_others "u2" (tblStories db_act).
Proof.
  refine (proj1 (others_data_untouched retitle_story (signed_in bob) later
                   db_act bob eq_refl _)).
  repeat split; distinct_ids.
Defined.

Lemma story_references_preserved_witness : stories_exist db_act.
Proof.
  apply (story_references_preserved
           (createStoryAct (CreateStoryAct.mk "S1" None None None))
           (signed_in alice) (mkRuntime "A1" 101%Z) db_story).
  repeat split; intros x [].
Defined.

(** Alice deletes A1 while nothing is under it. *)
Lemma deleted_is_gone_witness :
  done = done /\
  stored_ids (store run_deleteStoryAct_unreferenced) StoryActs_ =
    filter (fun x => negb (String.eqb x "A1"))
      (stored_ids db_act StoryActs_) /\
  ~ In "A1" (stored_ids (store run_deleteStoryAct_unreferenced) StoryActs_) /\
  not_found_before_write
    (server delete_first_act (signed_in alice) later
       (store run_deleteStoryAct_unreferenced))
    (store run_deleteStoryAct_unreferenced).
Proof.
  apply (deleted_is_gone delete_first_act (signed_in alice)
           (mkRuntime "unused" 103%Z) db_act "A1" done
           (signed_in alice) later alice eq_refl eq_refl eq_refl).
Defined.




Lemma missing_entity_reported_witness :
  server alice_updates_missing_act (signed_in alice) later db_act =
    mkRun (inl (ActionError NOT_FOUND "Act not found.")) db_act
      [Select Stories_; Select StoryActs_].
Proof.
  apply (missing_entity_reported alice_updates_missing_act (signed_in alice)
           later db_act alice "S1" [] eq_refl eq_refl eq_refl eq_refl).
  - exists novel. repeat split. now left.
  - intros [].
Defined.

Lemma created_story_is_listed_witness :
  exists returned stored before after,
    outcome run_createStory = inr (story_ (Some returned)) /\
    tblStories (store run_createStory) = tblStories empty_db ++ [stored] /\
    Stories.id stored = "S1" /\
    Stories.userId stored = "u1" /\
    Stories.title stored = "Novel A" /\
    Stories.createdAt stored = 100%Z /\
    Stories.updatedAt stored = 100%Z /\
    Stories.id returned = "S1" /\
    Stories.userId returned = "u1" /\
    Stories.createdAt returned = 100%Z /\
    Stories.updatedAt returned = 100%Z /\
    outcome (server (listStories tt) (signed_in alice) later empty_db) =
      inr (stories_ before (length before)) /\
    outcome (server (listStories tt) (signed_in alice) later db_story) =
      inr (stories_ after (length before + 1)) /\
    map Stories.id after = map Stories.id before ++ ["S1"].
Proof.
  apply (created_story_is_listed
           (CreateStory.mk "Novel A" None None None None None) tt
           (signed_in alice) (mkRuntime "S1" 100%Z) later empty_db alice).
  - discriminate.
  - reflexivity.
  - intros [].
Defined.

(** In the scenario no act is stored under the empty id, so the chapter
    with actId "" is refused by the engine, after the story lookup alone. *)
Lemma empty_ancestor_id_skips_lookup_witness :
  log run_createStoryChapter_empty_actId =
    [Select Stories_; Insert StoryChapters_] /\
  (~ In "" (stored_ids db_story StoryActs_) ->
   run_createStoryChapter_empty_actId =
     mkRun (inl (DriverError foreign_key_violation)) db_story
       [Select Stories_; Insert StoryChapters_]).
Proof.
  apply (proj1 (empty_ancestor_id_skips_lookup (signed_in alice)
                  (mkRuntime "C3" 111%Z) db_story alice eq_refl)
           (CreateStoryChapter.mk "S1" (Some "") None None None None)
           eq_refl eq_refl).
  exists novel. repeat split. now left.
Defined.

Lemma update_never_unlinks_witness :
  Forall2 (fun old new =>
             StoryChapters.id new = StoryChapters.id old /\
             (StoryChapters.actId old <> None ->
              StoryChapters.actId new <> None))
    (tblStoryChapters db_chapter)
    (tblStoryChapters
       (store (server retitle_chapter (signed_in alice) later db_chapter))).
Proof.
  apply (proj1 (update_never_unlinks (signed_in alice) later db_chapter)
           (UpdateStoryChapter.mk "C1" "S1" None None (Some "One") None None)
           (chapter_ (Some (StoryChapters.mk "C1" "S1" (Some "A1") 1%Z
                              (Some "One") None None 102%Z 300%Z)))).
  reflexivity.
Defined.

Lemma create_then_delete_restores_witness :
  outcome (server (deleteStoryAct (DeleteStoryAct.mk "A1" "S1"))
             (signed_in alice) later db_act) = inr done /\
  store (server (deleteStoryAct (DeleteStoryAct.mk "A1" "S1"))
           (signed_in alice) later db_act) = db_story.
Proof.
  apply (create_then_delete_restores
           (createStoryAct (CreateStoryAct.mk "S1" None None None))
           (deleteStoryAct (DeleteStoryAct.mk "A1" "S1"))
           (signed_in alice) (mkRuntime "A1" 101%Z) later db_story
           (act_ (Some first_act)) eq_refl).
  - discriminate.
  - intros [].
  - split; intros ? ? [].
  - reflexivity.
Defined.

Lemma response_shape_witness :
  well_shaped (createStoryAct (CreateStoryAct.mk "S1" None None None))
    (act_ (Some first_act)).
Proof.
  apply (response_shape
           (createStoryAct (CreateStoryAct.mk "S1" None None None))
           (signed_in alice) (mkRuntime "A1" 101%Z) db_story
           (act_ (Some first_act))).
  reflexivity.
Defined.

Lemma root_actions_never_not_found_witness : kind unauthorized = Unauthorized.
Proof.
  apply (proj1 (root_actions_never_not_found anonymous later db_story)
           tt unauthorized).
  reflexivity.
Defined.

(** The chapter of the scenario references A1; after Alice's refused delete
    of A1 it still names a stored act. *)
Lemma references_kept_witness : references_hold (store run_deleteStoryAct).
Proof.
  apply (references_kept delete_first_act (signed_in alice)
           (mkRuntime "unused" 103%Z) db_chapter).
  split.
  - intros chapter a [<-|[]] E. injection E as <-. now left.
  - intros scene k [].
Defined.
